(** * fs-hash: the incremental change-detection cache

    A shallow embedding of the cache core of [utility.ts]
    ([getHash], [isNewer], [fileInfoComparer], [getHashPath],
    [getCacheFile], [getCacheEntry], [setCacheFile], [setCacheEntry],
    [getCached], [updateCache]) together with the helpers it calls
    ([chainTasks], [exists], [stat], [mkdir], [mkdirp], [writeFile],
    [writeFilep], [readFile]).

    How the program is read:
    - Promises are sequentialised. Every call runs to completion on a
      [World] and ends in an [Outcome]: the promise resolved, the promise
      rejected, or the call threw before a promise existed. Calls of
      different operations are not interleaved.
    - The [World] holds the disk, the log of the file writes carried out,
      the heap of bucket objects and the module-level [localCache]. Bucket
      objects are handled by reference ([loc]), so that a bucket held by
      the overlay and the bucket a commit mutates are one object.
    - A bucket object is a plain JavaScript object: the finite map of its
      own properties and its prototype, which is [Object.prototype] unless
      an assignment to [__proto__] replaced it by a cache entry. Reading a
      property follows the prototype chain. Cache entries are never
      mutated after creation and are handled by value.
    - Numbers are the integers the code produces (epoch milliseconds and
      32-bit fingerprints), as [Z]. Strings are byte strings.
    - Node's [fs] is a map from the path given to what is there; it does
      not resolve paths and does not look at parent directories. Node's
      [path] is modelled for POSIX. [JSON.parse] reads the whole JSON
      grammar and throws on what is no JSON; of the texts that are JSON,
      those that denote buckets are loaded, the others are beyond the
      data of this model. [console.log] output is left out. *)

From Stdlib Require Import ZArith Lia Ascii String List.
From Stdlib Require Import Decimal DecimalString DecimalPos DecimalZ.
From stdpp Require Import gmap strings list fin_maps.

Local Open Scope Z_scope.

(* ===================================================================== *)
(** ** JavaScript numbers restricted to the integers the code handles *)
(* ===================================================================== *)

Module Int32.

(** ECMAScript [ToInt32]: reduce modulo 2^32 into [-2^31, 2^31). *)
Definition toInt32 (z : Z) : Z := (z + 2 ^ 31) mod 2 ^ 32 - 2 ^ 31.

(** [a << n] *)
Definition shl (a n : Z) : Z := toInt32 (Z.shiftl (toInt32 a) (n mod 32)).

(** [a | b] *)
Definition or (a b : Z) : Z := toInt32 (Z.lor (toInt32 a) (toInt32 b)).

Definition in_range (z : Z) : Prop := - 2 ^ 31 <= z < 2 ^ 31.

End Int32.

(* ===================================================================== *)
(** ** ContentFingerprint: [getHash] *)
(* ===================================================================== *)

(** [text.charCodeAt(i)] for the byte strings of this model. *)
Definition charCodeAt (c : ascii) : Z := Z.of_N (N_of_ascii c).

(** One iteration of the loop body:
    [hash = ((hash << 5) - hash) + chr; hash |= 0]. *)
Definition hash_step (hash chr : Z) : Z :=
  Int32.or ((Int32.shl hash 5 - hash) + chr) 0.

(** The [for] loop over the code units, left to right. *)
Definition hash_loop (hash : Z) (codes : list Z) : Z :=
  fold_left hash_step codes hash.

Definition getHash (text : string) : Z :=
  let hash := 0 in
  if (String.length text =? 0)%nat then hash
  else hash_loop hash (map charCodeAt (list_ascii_of_string text)).

(** [const gracePeriodMilliseconds = 1000 * 60 * 2] *)
Definition gracePeriodMilliseconds : Z := 1000 * 60 * 2.

Definition isNewer (date comparedToDate : Z) : bool :=
  comparedToDate <? date - gracePeriodMilliseconds.

(* ===================================================================== *)
(** ** Node's [path] module (POSIX flavour), as far as [getHashPath] and
       [mkdirp] use it *)
(* ===================================================================== *)

Module NodePath.

Definition slash : ascii := Ascii.ascii_of_nat 47.

Definition starts_with_slash (p : string) : bool :=
  match p with
  | String c _ => Ascii.eqb c slash
  | EmptyString => false
  end.

Fixpoint ends_with_slash (p : string) : bool :=
  match p with
  | EmptyString => false
  | String c EmptyString => Ascii.eqb c slash
  | String _ rest => ends_with_slash rest
  end.

(** [p.split('/')] *)
Fixpoint split (p : string) : list string :=
  match p with
  | EmptyString => [EmptyString]
  | String c rest =>
      if Ascii.eqb c slash then EmptyString :: split rest
      else match split rest with
           | seg :: segs => String c seg :: segs
           | [] => [String c EmptyString]
           end
  end.

(** [segs.join('/')] *)
Definition unsplit (segs : list string) : string := String.concat "/" segs.

(** The segment stack of [normalizeString]: empty and [.] segments are
    dropped, [..] pops a proper segment, and is kept only when it may
    climb above the start. *)
Definition push_segment (allowAboveRoot : bool) (res : list string)
    (seg : string) : list string :=
  if String.eqb seg EmptyString || String.eqb seg "." then res
  else if String.eqb seg ".." then
    match res with
    | top :: below =>
        if String.eqb top ".." then
          (if allowAboveRoot then seg :: res else res)
        else below
    | [] => if allowAboveRoot then [seg] else []
    end
  else seg :: res.

(** Segments are kept innermost first while scanning. *)
Definition normalizeSegments (p : string) (allowAboveRoot : bool) : list string :=
  rev (fold_left (push_segment allowAboveRoot) (split p) []).

Definition normalizeString (p : string) (allowAboveRoot : bool) : string :=
  unsplit (normalizeSegments p allowAboveRoot).

Definition normalize (p : string) : string :=
  if String.eqb p EmptyString then "."
  else
    let isAbsolute := starts_with_slash p in
    let trailingSeparator := ends_with_slash p in
    let q := normalizeString p (negb isAbsolute) in
    if String.eqb q EmptyString then
      (if isAbsolute then "/" else if trailingSeparator then "./" else ".")
    else
      let q' := if trailingSeparator then q +:+ "/" else q in
      if isAbsolute then "/" +:+ q' else q'.

(** [path.join(...args)] *)
Definition join (args : list string) : string :=
  match filter (fun a => a <> EmptyString) args with
  | [] => "."
  | parts => normalize (unsplit parts)
  end.

(** [path.resolve(p)] for one argument, against the working directory. *)
Definition resolveSegments (cwd p : string) : bool * list string :=
  let resolvedPath :=
    if String.eqb p EmptyString then cwd +:+ "/"
    else if starts_with_slash p then p +:+ "/"
    else cwd +:+ "/" +:+ p +:+ "/" in
  let resolvedAbsolute := starts_with_slash resolvedPath in
  (resolvedAbsolute, normalizeSegments resolvedPath (negb resolvedAbsolute)).

Definition resolve (cwd p : string) : string :=
  let '(resolvedAbsolute, segs) := resolveSegments cwd p in
  if resolvedAbsolute then "/" +:+ unsplit segs
  else match segs with [] => "." | _ => unsplit segs end.

Fixpoint commonPrefix (a b : list string) : nat :=
  match a, b with
  | x :: a', y :: b' => if String.eqb x y then S (commonPrefix a' b') else O
  | _, _ => O
  end.

(** [path.relative(from, to)] *)
Definition relative (cwd from to : string) : string :=
  if String.eqb from to then EmptyString
  else
    let f := snd (resolveSegments cwd from) in
    let t := snd (resolveSegments cwd to) in
    if String.eqb (resolve cwd from) (resolve cwd to) then EmptyString
    else
      let c := commonPrefix f t in
      unsplit (repeat ".." (length f - c) ++ drop c t).

Fixpoint dropWhile {A} (f : A -> bool) (l : list A) : list A :=
  match l with
  | x :: l' => if f x then dropWhile f l' else l
  | [] => []
  end.

Definition is_slash (c : ascii) : bool := Ascii.eqb c slash.

(** [path.dirname(p)]: scanning from the right down to index 1, skip
    the trailing slashes, skip the last segment, and cut at the slash
    found there ([end]); index 0 is never examined. *)
Definition dirname (p : string) : string :=
  match list_ascii_of_string p with
  | [] => "."
  | c0 :: tail =>
      let hasRoot := is_slash c0 in
      let afterSegment :=
        dropWhile (fun c => negb (is_slash c)) (dropWhile is_slash (rev tail)) in
      match afterSegment with
      | [] => if hasRoot then "/" else "."
      | _ :: before =>
          match before with
          | [] => if hasRoot then "//" else String c0 EmptyString
          | _ => string_of_list_ascii (c0 :: rev before)
          end
      end
  end.

End NodePath.

(* ===================================================================== *)
(** ** Data model *)
(* ===================================================================== *)

Record CacheEntry : Type := mkCacheEntry {
  dateUpdated : Z;
  hash : Z
}.

Global Instance CacheEntry_eq_dec : EqDecision CacheEntry.
Proof. solve_decision. Defined.

(** [type CacheFile = { [key: string]: CacheEntry }]: a bucket object. It
    is made by an object literal or by [JSON.parse], so it starts with
    [Object.prototype] as its prototype; assigning to [__proto__] can put
    a cache entry in that place.
    - [own]: the own properties;
    - [proto]: [None] for [Object.prototype], [Some e] for the entry
      object [e], whose own prototype is [Object.prototype]. *)
Record CacheFile : Type := mkCacheFile {
  own : gmap string CacheEntry;
  proto : option CacheEntry
}.

Global Instance CacheFile_eq_dec : EqDecision CacheFile.
Proof. solve_decision. Defined.

(** What reading a property of a bucket can give. *)
Inductive Value : Type :=
  | VEntry (e : CacheEntry)       (* a cache entry object *)
  | VNumber (n : Z)               (* a field of the entry that is the prototype *)
  | VBuiltin (name : string)      (* the member of [Object.prototype] of that name *)
  | VObjectPrototype.             (* [Object.prototype] itself *)

Coercion VEntry : CacheEntry >-> Value.

Global Instance Value_eq_dec : EqDecision Value.
Proof. solve_decision. Defined.

(** The property names of [Object.prototype]. *)
Definition objectPrototype : list string :=
  ["constructor"; "hasOwnProperty"; "isPrototypeOf"; "propertyIsEnumerable";
   "toLocaleString"; "toString"; "valueOf"; "__defineGetter__";
   "__defineSetter__"; "__lookupGetter__"; "__lookupSetter__"; "__proto__"].

(** [Object.prototype[key]], when the lookup gets that far: the accessor
    [__proto__] answers with the prototype of the object asked. *)
Definition inherited (c : CacheFile) (key : string) : option Value :=
  if decide (key = "__proto__") then
    Some (match proto c with Some e => VEntry e | None => VObjectPrototype end)
  else if decide (key ∈ objectPrototype) then Some (VBuiltin key)
  else None.

(** [cacheFile[key]]: an own property, else a field of the entry that is
    the prototype, else what [Object.prototype] has; [None] is
    [undefined]. *)
Definition getProperty (c : CacheFile) (key : string) : option Value :=
  match own c !! key with
  | Some e => Some (VEntry e)
  | None =>
      match proto c with
      | Some e =>
          if decide (key = "dateUpdated") then Some (VNumber (dateUpdated e))
          else if decide (key = "hash") then Some (VNumber (hash e))
          else inherited c key
      | None => inherited c key
      end
  end.

(** [cacheFile[key] = entry]: an own property is created or updated,
    unless the key is [__proto__] and the object has no own property of
    that name: then the setter of [Object.prototype] makes the entry the
    prototype of the object. *)
Definition assign (key : string) (entry : CacheEntry) (c : CacheFile) : CacheFile :=
  if decide (key = "__proto__" /\ own c !! key = None)
  then mkCacheFile (own c) (Some entry)
  else mkCacheFile (<[key := entry]> (own c)) (proto c).

(** The object literal [{}]. *)
Global Instance CacheFile_empty : Empty CacheFile := mkCacheFile ∅ None.

(** [c !! key] is the cache entry [c[key]] reads, if it reads one;
    [<[key := entry]> c] is [c] after [c[key] = entry]. *)
Global Instance CacheFile_lookup : Lookup string CacheEntry CacheFile :=
  fun key c =>
    match getProperty c key with
    | Some (VEntry e) => Some e
    | _ => None
    end.

Global Instance CacheFile_insert : Insert string CacheEntry CacheFile := assign.

(** [v || fallback]: of the values a bucket can give, only [undefined]
    and the number 0 are falsy. *)
Definition truthy (v : Value) : bool :=
  match v with
  | VNumber n => negb (n =? 0)
  | _ => true
  end.

Definition orElse (a : option Value) (fallback : Value) : Value :=
  match a with
  | Some v => if truthy v then v else fallback
  | None => fallback
  end.

(* ===================================================================== *)
(** ** [JSON.stringify] and [JSON.parse]

    [stringify] is the builtin on bucket objects: the compact text of the
    own properties (members in the order of [map_to_list]; the builtin
    writes them in the order of the property keys of the object).

    [parse_text] reads the whole JSON grammar, white space included, into
    a syntax tree, and fails exactly on the texts for which the builtin
    throws its [SyntaxError]. [bucket_of] reads a tree as a bucket: an
    object whose members are objects with an integer [dateUpdated] and an
    integer [hash], in any order. A text that is JSON but no bucket
    (another shape, a number with a fraction or an exponent, a key with an
    escape beyond ASCII) is beyond this model of the data. *)
(* ===================================================================== *)

Module JSON.

Definition dquote : ascii := Ascii.ascii_of_nat 34.
Definition backslash : ascii := Ascii.ascii_of_nat 92.

(** Printers prepend their output to the text that follows. *)
Definition lit (token rest : string) : string := token +:+ rest.

Definition hexDigit (n : N) : ascii :=
  if (n <? 10)%N then ascii_of_N (48 + n) else ascii_of_N (87 + n).

Definition hexValue (c : ascii) : option N :=
  let n := N_of_ascii c in
  if (48 <=? n)%N && (n <=? 57)%N then Some (n - 48)%N
  else if (97 <=? n)%N && (n <=? 102)%N then Some (n - 87)%N
  else if (65 <=? n)%N && (n <=? 70)%N then Some (n - 55)%N
  else None.

(** [QuoteJSONString]: the quote, the backslash and the control
    characters are escaped, everything else is copied. *)
Definition print_char (c : ascii) (rest : string) : string :=
  let n := N_of_ascii c in
  if Ascii.eqb c dquote then String backslash (String dquote rest)
  else if Ascii.eqb c backslash then String backslash (String backslash rest)
  else if (n =? 8)%N then String backslash (String "b" rest)
  else if (n =? 9)%N then String backslash (String "t" rest)
  else if (n =? 10)%N then String backslash (String "n" rest)
  else if (n =? 12)%N then String backslash (String "f" rest)
  else if (n =? 13)%N then String backslash (String "r" rest)
  else if (n <? 32)%N then
    String backslash (String "u" (String "0" (String "0"
      (String (hexDigit (n / 16)) (String (hexDigit (n mod 16)) rest)))))
  else String c rest.

Fixpoint print_chars (k : string) (rest : string) : string :=
  match k with
  | EmptyString => rest
  | String c k' => print_char c (print_chars k' rest)
  end.

Definition print_string (k : string) (rest : string) : string :=
  String dquote (print_chars k (String dquote rest)).

Definition print_int (z : Z) (rest : string) : string :=
  NilEmpty.string_of_int (Z.to_int z) +:+ rest.

Definition print_entry (e : CacheEntry) (rest : string) : string :=
  lit "{" (print_string "dateUpdated" (lit ":" (print_int (dateUpdated e)
    (lit "," (print_string "hash" (lit ":" (print_int (hash e)
      (lit "}" rest)))))))).

Definition print_member (m : string * CacheEntry) (rest : string) : string :=
  print_string (fst m) (lit ":" (print_entry (snd m) rest)).

Fixpoint print_members (ms : list (string * CacheEntry)) (rest : string) : string :=
  match ms with
  | [] => rest
  | [m] => print_member m rest
  | m :: ms' => print_member m (lit "," (print_members ms' rest))
  end.

Definition stringify (c : CacheFile) : string :=
  lit "{" (print_members (map_to_list (own c)) (lit "}" EmptyString)).

(** *** The grammar *)

(** A JSON text as a tree. A string is kept when it is a byte string of
    this model ([None]: it has a [\u] escape beyond ASCII); a number is
    kept when it is written as an integer ([None]: it has a fraction or
    an exponent). *)
#[warnings="-register-all"]
Inductive Json : Type :=
  | JNull
  | JBool (b : bool)
  | JNumber (n : option Z)
  | JString (s : option string)
  | JArray (items : list Json)
  | JObject (members : list (option string * Json)).

(** Space, tab, line feed and carriage return. *)
Definition is_ws (c : ascii) : bool :=
  let n := N_of_ascii c in
  (n =? 32)%N || (n =? 9)%N || (n =? 10)%N || (n =? 13)%N.

Fixpoint skip_ws (s : string) : string :=
  match s with
  | String c rest => if is_ws c then skip_ws rest else s
  | EmptyString => s
  end.

Definition cons_char (c : ascii) (r : option (option string * string))
    : option (option string * string) :=
  match r with
  | Some (k, rest) => Some (option_map (String c) k, rest)
  | None => None
  end.

(** A [\uXXXX] escape: a byte when it is ASCII. *)
Definition cons_unit (n : N) (r : option (option string * string))
    : option (option string * string) :=
  if (n <? 128)%N then cons_char (ascii_of_N n) r
  else match r with
       | Some (_, rest) => Some (None, rest)
       | None => None
       end.

(** The characters of a string literal up to and including the closing
    quote. *)
Fixpoint parse_chars (s : string) : option (option string * string) :=
  match s with
  | EmptyString => None
  | String c rest =>
      if Ascii.eqb c dquote then Some (Some EmptyString, rest)
      else if Ascii.eqb c backslash then
        match rest with
        | String e rest1 =>
            if Ascii.eqb e dquote then cons_char dquote (parse_chars rest1)
            else if Ascii.eqb e backslash then cons_char backslash (parse_chars rest1)
            else if Ascii.eqb e "/" then cons_char "/" (parse_chars rest1)
            else if Ascii.eqb e "b" then cons_char (ascii_of_N 8) (parse_chars rest1)
            else if Ascii.eqb e "t" then cons_char (ascii_of_N 9) (parse_chars rest1)
            else if Ascii.eqb e "n" then cons_char (ascii_of_N 10) (parse_chars rest1)
            else if Ascii.eqb e "f" then cons_char (ascii_of_N 12) (parse_chars rest1)
            else if Ascii.eqb e "r" then cons_char (ascii_of_N 13) (parse_chars rest1)
            else if Ascii.eqb e "u" then
              match rest1 with
              | String h3 (String h2 (String h1 (String h0 rest5))) =>
                  match hexValue h3, hexValue h2, hexValue h1, hexValue h0 with
                  | Some a, Some b, Some c, Some d =>
                      cons_unit (4096 * a + 256 * b + 16 * c + d) (parse_chars rest5)
                  | _, _, _, _ => None
                  end
              | _ => None
              end
            else None
        | EmptyString => None
        end
      else if (N_of_ascii c <? 32)%N then None
      else cons_char c (parse_chars rest)
  end.

Definition digit (c : ascii) : option (uint -> uint) :=
  match c with
  | "0" => Some D0 | "1" => Some D1 | "2" => Some D2 | "3" => Some D3
  | "4" => Some D4 | "5" => Some D5 | "6" => Some D6 | "7" => Some D7
  | "8" => Some D8 | "9" => Some D9 | _ => None
  end%char.

(** The longest run of decimal digits. *)
Fixpoint read_uint (s : string) : uint * string :=
  match s with
  | EmptyString => (Nil, s)
  | String c rest =>
      match digit c with
      | Some d => let '(u, rest') := read_uint rest in (d u, rest')
      | None => (Nil, s)
      end
  end.

(** What follows an integer does not go on with a digit, a fraction or
    an exponent. *)
Definition ends_number (s : string) : Prop :=
  match s with
  | String c _ =>
      digit c = None /\ c <> "."%char /\ c <> "e"%char /\ c <> "E"%char
  | EmptyString => True
  end.

(** The integer part: an optional minus sign, then digits without a
    superfluous leading zero. *)
Definition parse_int (s : string) : option (Z * string) :=
  let '(negative, digits) :=
    match s with
    | String c rest => if Ascii.eqb c "-" then (true, rest) else (false, s)
    | EmptyString => (false, s)
    end in
  let '(u, rest) := read_uint digits in
  if uint_eq_dec (unorm u) u
  then Some (Z.of_int (if negative then Neg u else Pos u), rest)
  else None.

(** One or more digits. *)
Definition parse_digits (s : string) : option string :=
  match read_uint s with
  | (Nil, _) => None
  | (_, rest) => Some rest
  end.

(** The optional fraction and the optional exponent: whether there is
    one, and the text after it. *)
Definition parse_fraction (s : string) : option (bool * string) :=
  match s with
  | String c rest =>
      if Ascii.eqb c "." then rest' ← parse_digits rest; Some (true, rest')
      else Some (false, s)
  | EmptyString => Some (false, s)
  end.

Definition parse_exponent (s : string) : option (bool * string) :=
  match s with
  | String c rest =>
      if Ascii.eqb c "e" || Ascii.eqb c "E" then
        let digits :=
          match rest with
          | String sign rest' =>
              if Ascii.eqb sign "+" || Ascii.eqb sign "-" then rest' else rest
          | EmptyString => rest
          end in
        rest' ← parse_digits digits; Some (true, rest')
      else Some (false, s)
  | EmptyString => Some (false, s)
  end.

Definition parse_number (s : string) : option (Json * string) :=
  '(z, s1) ← parse_int s;
  '(fraction, s2) ← parse_fraction s1;
  '(exponent, s3) ← parse_exponent s2;
  Some (JNumber (if fraction || exponent then None else Some z), s3).

Fixpoint expect (token s : string) : option string :=
  match token, s with
  | EmptyString, _ => Some s
  | String a token', String b s' =>
      if Ascii.eqb a b then expect token' s' else None
  | String _ _, EmptyString => None
  end.

(** A value, after white space; the members of an object after its
    opening brace or a comma, up to and including the closing brace; the
    items of an array likewise. Every call reads at least one character
    before it calls the next, so fuel above the length of the text is
    never used up. *)
Fixpoint parse_value (fuel : nat) (s : string) : option (Json * string) :=
  match fuel with
  | O => None
  | S fuel' =>
      match skip_ws s with
      | String c rest =>
          if Ascii.eqb c "{" then
            match skip_ws rest with
            | String c' rest' =>
                if Ascii.eqb c' "}" then Some (JObject [], rest')
                else '(ms, s1) ← parse_members fuel' rest; Some (JObject ms, s1)
            | EmptyString => None
            end
          else if Ascii.eqb c "[" then
            match skip_ws rest with
            | String c' rest' =>
                if Ascii.eqb c' "]" then Some (JArray [], rest')
                else '(vs, s1) ← parse_items fuel' rest; Some (JArray vs, s1)
            | EmptyString => None
            end
          else if Ascii.eqb c dquote then
            '(k, s1) ← parse_chars rest; Some (JString k, s1)
          else if Ascii.eqb c "t" then s1 ← expect "rue" rest; Some (JBool true, s1)
          else if Ascii.eqb c "f" then s1 ← expect "alse" rest; Some (JBool false, s1)
          else if Ascii.eqb c "n" then s1 ← expect "ull" rest; Some (JNull, s1)
          else parse_number (String c rest)
      | EmptyString => None
      end
  end
with parse_members (fuel : nat) (s : string)
    : option (list (option string * Json) * string) :=
  match fuel with
  | O => None
  | S fuel' =>
      match skip_ws s with
      | String q s0 =>
          if Ascii.eqb q dquote then
            '(k, s1) ← parse_chars s0;
            match skip_ws s1 with
            | String colon s2 =>
                if Ascii.eqb colon ":" then
                  '(v, s3) ← parse_value fuel' s2;
                  match skip_ws s3 with
                  | String c s4 =>
                      if Ascii.eqb c "," then
                        '(ms, s5) ← parse_members fuel' s4; Some ((k, v) :: ms, s5)
                      else if Ascii.eqb c "}" then Some ([(k, v)], s4)
                      else None
                  | EmptyString => None
                  end
                else None
            | EmptyString => None
            end
          else None
      | EmptyString => None
      end
  end
with parse_items (fuel : nat) (s : string) : option (list Json * string) :=
  match fuel with
  | O => None
  | S fuel' =>
      '(v, s1) ← parse_value fuel' s;
      match skip_ws s1 with
      | String c s2 =>
          if Ascii.eqb c "," then
            '(vs, s3) ← parse_items fuel' s2; Some (v :: vs, s3)
          else if Ascii.eqb c "]" then Some ([v], s2)
          else None
      | EmptyString => None
      end
  end.

(** A JSON text is one value between white space. [None] is the
    [SyntaxError] of the builtin. *)
Definition parse_text (s : string) : option Json :=
  '(v, rest) ← parse_value (S (String.length s)) s;
  match skip_ws rest with
  | EmptyString => Some v
  | String _ _ => None
  end.

(** *** Trees that are buckets *)

(** The value of a property once all members are defined in order: the
    one given last. *)
Definition property (name : string) (members : list (option string * Json))
    : option Json :=
  fold_left
    (fun found m => if decide (fst m = Some name) then Some (snd m) else found)
    members None.

Definition integer_of (v : option Json) : option Z :=
  match v with
  | Some (JNumber (Some z)) => Some z
  | _ => None
  end.

(** An entry object: the properties [dateUpdated] and [hash], integers
    both, and no other. *)
Definition entry_of (v : Json) : option CacheEntry :=
  match v with
  | JObject members =>
      if forallb
           (fun m => bool_decide (fst m = Some "dateUpdated" \/ fst m = Some "hash"))
           members
      then
        d ← integer_of (property "dateUpdated" members);
        h ← integer_of (property "hash" members);
        Some (mkCacheEntry d h)
      else None
  | _ => None
  end.

Definition member_of (m : option string * Json) : option (string * CacheEntry) :=
  k ← fst m; e ← entry_of (snd m); Some (k, e).

(** A later member with the same key replaces an earlier one. *)
Definition object_of_members (ms : list (string * CacheEntry)) : gmap string CacheEntry :=
  list_to_map (reverse ms).

(** [JSON.parse] creates own properties, also under [__proto__]. *)
Definition bucket_of (v : Json) : option CacheFile :=
  match v with
  | JObject members =>
      ms ← mapM member_of members;
      Some (mkCacheFile (object_of_members ms) None)
  | _ => None
  end.

(** The tree of the text [stringify] writes. *)
Definition tree_of_entry (e : CacheEntry) : Json :=
  JObject [(Some "dateUpdated", JNumber (Some (dateUpdated e)));
           (Some "hash", JNumber (Some (hash e)))].

Definition tree_of_member (m : string * CacheEntry) : option string * Json :=
  (Some (fst m), tree_of_entry (snd m)).

(** [JSON.parse] on the texts of buckets. *)
Definition parse (s : string) : option CacheFile :=
  v ← parse_text s; bucket_of v.

End JSON.

(* ===================================================================== *)
(** ** Errors, outcomes and the world *)
(* ===================================================================== *)

Inductive JsError : Type :=
  | ErrnoException (code message : string)   (* an error of Node's [fs], with [err.code] *)
  | AssertionError (message : string)        (* [assert.ok] failed *)
  | SyntaxError (message : string)           (* [JSON.parse] *)
  | Error (message : string).                (* [new Error(message)] *)

(** [err.code] *)
Definition errCode (err : JsError) : option string :=
  match err with
  | ErrnoException code _ => Some code
  | AssertionError _ => Some "ERR_ASSERTION"
  | SyntaxError _ | Error _ => None
  end.

(** [err.message] *)
Definition errMessage (err : JsError) : string :=
  match err with
  | ErrnoException _ message | AssertionError message
  | SyntaxError message | Error message => message
  end.

(** What is found at a path of the disk. [Faulty code] stands for anything
    whose access fails with that [errno] code (no permission, I/O error,
    dangling link, ...). *)
Inductive FsNode : Type :=
  | File (ctime : Z) (data : string)
  | Directory (ctime : Z)
  | Faulty (code : string).

(** The part of [fs.Stats] the code looks at. *)
Record Stats : Type := mkStats {
  ctime : Z;
  isDirectory : bool
}.

(** Bucket objects live in a heap and are handled by reference. *)
Abbreviation loc := positive.

Record World : Type := mkWorld {
  disk : gmap string FsNode;            (* the file system, by path *)
  clock : Z;                            (* the time stamped on what is written *)
  writeLog : list (string * string);    (* every [fs.writeFile] carried out, latest first *)
  heap : gmap loc CacheFile;            (* the bucket objects allocated so far *)
  localCache : gmap string loc          (* [const localCache = new Map<string, CacheFile>()] *)
}.

(** The state in which the module is loaded on a given disk. *)
Definition initialWorld (d : gmap string FsNode) (now : Z) : World :=
  mkWorld d now [] ∅ ∅.

(** A call either yields a promise that resolves or rejects, or throws
    before any promise exists. *)
Inductive Outcome (A : Type) : Type :=
  | Resolved (a : A)
  | Rejected (err : JsError)
  | Thrown (err : JsError).
Arguments Resolved {A} & a.
Arguments Rejected {A} err.
Arguments Thrown {A} err.

Definition Promise (A : Type) : Type := World -> Outcome A * World.

Definition resolve {A} (a : A) : Promise A := fun w => (Resolved a, w).
Definition reject {A} (err : JsError) : Promise A := fun w => (Rejected err, w).
Definition throw {A} (err : JsError) : Promise A := fun w => (Thrown err, w).

(** Inside a callback a [throw] rejects the promise the callback feeds. *)
Definition settle {A} (r : Outcome A * World) : Outcome A * World :=
  match r with
  | (Thrown err, w) => (Rejected err, w)
  | _ => r
  end.

(** Statement sequencing in synchronous code: [const x = m; k x]. *)
Definition seq_ {A B} (m : Promise A) (k : A -> Promise B) : Promise B :=
  fun w =>
    match m w with
    | (Resolved a, w1) => k a w1
    | (Rejected err, w1) => (Rejected err, w1)
    | (Thrown err, w1) => (Thrown err, w1)
    end.

(** [m.then(k)] *)
Definition then_ {A B} (m : Promise A) (k : A -> Promise B) : Promise B :=
  fun w =>
    match m w with
    | (Resolved a, w1) => settle (k a w1)
    | (Rejected err, w1) => (Rejected err, w1)
    | (Thrown err, w1) => (Thrown err, w1)
    end.

(** [m.catch(h)] *)
Definition catch_ {A} (m : Promise A) (h : JsError -> Promise A) : Promise A :=
  fun w =>
    match m w with
    | (Rejected err, w1) => settle (h err w1)
    | r => r
    end.

(** [new Promise(executor)]: a throw inside the executor rejects. *)
Definition new_Promise {A} (executor : Promise A) : Promise A :=
  fun w => settle (executor w).

(** [Promise.all([m1, m2])]: both calls are made, then both promises are
    awaited; the first rejection wins. *)
Definition Promise_all2 {A B} (m1 : Promise A) (m2 : Promise B) : Promise (A * B) :=
  fun w =>
    match m1 w with
    | (Thrown err, w1) => (Thrown err, w1)
    | (Rejected err, w1) =>
        match m2 w1 with
        | (Thrown err2, w2) => (Thrown err2, w2)
        | (_, w2) => (Rejected err, w2)
        end
    | (Resolved a, w1) =>
        match m2 w1 with
        | (Thrown err2, w2) => (Thrown err2, w2)
        | (Rejected err2, w2) => (Rejected err2, w2)
        | (Resolved b, w2) => (Resolved (a, b), w2)
        end
    end.

Declare Scope promise_scope.
Delimit Scope promise_scope with promise.
Notation "'let*' x := m 'in' k" := (seq_ m (fun x => k))
  (at level 10, x pattern, m at level 100, k at level 200, only parsing) : promise_scope.
Notation "'then*' x := m 'in' k" := (then_ m (fun x => k))
  (at level 10, x pattern, m at level 100, k at level 200, only parsing) : promise_scope.
Local Open Scope promise_scope.

(* ===================================================================== *)
(** ** Node's [fs] on the modelled disk *)
(* ===================================================================== *)

Definition errno (code path : string) : JsError :=
  ErrnoException code (code +:+ ": " +:+ path).

(** [fs.readFile(filename, 'utf-8', cb)] *)
Definition fs_readFile (filename : string) : Promise string :=
  fun w =>
    match disk w !! filename with
    | Some (File _ data) => (Resolved data, w)
    | Some (Directory _) => (Rejected (errno "EISDIR" filename), w)
    | Some (Faulty code) => (Rejected (errno code filename), w)
    | None => (Rejected (errno "ENOENT" filename), w)
    end.

(** [fs.stat(filename, cb)] *)
Definition fs_stat (filename : string) : Promise Stats :=
  fun w =>
    match disk w !! filename with
    | Some (File t _) => (Resolved (mkStats t false), w)
    | Some (Directory t) => (Resolved (mkStats t true), w)
    | Some (Faulty code) => (Rejected (errno code filename), w)
    | None => (Rejected (errno "ENOENT" filename), w)
    end.

(** [fs.access(src, fs.constants.F_OK, cb)] *)
Definition fs_access (src : string) : Promise unit :=
  fun w =>
    match disk w !! src with
    | Some (Faulty code) => (Rejected (errno code src), w)
    | Some _ => (Resolved tt, w)
    | None => (Rejected (errno "ENOENT" src), w)
    end.

(** [fs.mkdir(target, cb)] *)
Definition fs_mkdir (target : string) : Promise unit :=
  fun w =>
    match disk w !! target with
    | Some _ => (Rejected (errno "EEXIST" target), w)
    | None =>
        (Resolved tt,
         mkWorld (<[target := Directory (clock w)]> (disk w)) (clock w)
                 (writeLog w) (heap w) (localCache w))
    end.

(** [fs.writeFile(target, text, cb)] *)
Definition fs_writeFile (target text : string) : Promise unit :=
  fun w =>
    match disk w !! target with
    | Some (Directory _) => (Rejected (errno "EISDIR" target), w)
    | Some (Faulty code) => (Rejected (errno code target), w)
    | _ =>
        (Resolved tt,
         mkWorld (<[target := File (clock w) text]> (disk w)) (clock w)
                 ((target, text) :: writeLog w) (heap w) (localCache w))
    end.

(* ===================================================================== *)
(** ** The promise helpers of the repository *)
(* ===================================================================== *)

(** [assert.ok(value, message)] on a string: the empty string is falsy. *)
Definition assert_ok (value message : string) : Promise unit :=
  if decide (value = EmptyString) then throw (AssertionError message)
  else resolve tt.

(** Run the tasks one after the other; the first failure ends the chain. *)
Fixpoint chainTasks {A} (queue : list (Promise A)) : Promise (list A) :=
  match queue with
  | [] => resolve []
  | next :: queue' =>
      then* data := next in
      then* results := chainTasks queue' in
      resolve (data :: results)
  end.

Definition exists_ (src : string) : Promise string :=
  then* _ := fs_access src in resolve src.

Definition stat (filename : string) : Promise Stats :=
  let* _ := assert_ok filename "`filename` is required for readLines" in
  fs_stat filename.

Definition mkdir (target : string) : Promise unit :=
  let* _ := assert_ok target "`target` is required for mkdir" in
  fs_mkdir target.

Definition withoutTrailingSlash (text : string) : string :=
  if NodePath.ends_with_slash text
  then String.substring 0 (String.length text - 1) text
  else text.

(** [segments.slice(0, index).join('/')] for [index = 1 .. segments.length],
    without the empty ones. *)
Definition partialPaths (target : string) : list string :=
  let segments := NodePath.split (withoutTrailingSlash target) in
  filter (fun partialPath => partialPath <> EmptyString)
    (map (fun index => NodePath.unsplit (take index segments))
         (seq 1 (length segments))).

(** One link of the chain [mkdirp] builds. *)
Definition mkdirpTask (partialPath : string) : Promise unit :=
  catch_
    (then* _ := exists_ partialPath in
     then* stats := stat partialPath in
     if isDirectory stats then resolve tt
     else throw (ErrnoException "EISDIR"
            ("EISDIR: " +:+ partialPath +:+ " exists but isn't a directory")))
    (fun err =>
       if decide (errCode err = Some "ENOENT") then mkdir partialPath
       else throw err).

Definition mkdirp (target : string) : Promise (list unit) :=
  let* _ := assert_ok target "`target` is required for mkdirp" in
  new_Promise (chainTasks (map mkdirpTask (partialPaths target))).

Definition writeFile (target text : string) : Promise unit :=
  let* _ := assert_ok target "`target` is required for writeFile" in
  let* _ := assert_ok text "`text` is required for writeFile" in
  fs_writeFile target text.

Definition writeFilep (target text : string) : Promise unit :=
  let* _ := assert_ok target "`target` is required for writeFilep" in
  let* _ := assert_ok text "`text` is required for writeFilep" in
  then* _ := mkdirp (NodePath.dirname target) in
  writeFile target text.

Definition readFile (filename : string) : Promise string :=
  let* _ := assert_ok filename "`filename` is required for readFile" in
  fs_readFile filename.

(* ===================================================================== *)
(** ** The cache *)
(* ===================================================================== *)

(** [rootPath] and [hashCacheDir] come from [lint-fmt-common], which is not
    part of the sources at hand; [cwd] is [process.cwd()], against which
    [path.relative] resolves relative paths. *)
Class Config : Type := mkConfig {
  rootPath : string;
  hashCacheDir : string;
  cwd : string
}.

(** [type FileInfo]. Its [dateUpdated] is [fi_dateUpdated] here, the
    name being taken by the field of [CacheEntry]. *)
Record FileInfo : Type := mkFileInfo {
  filePath : string;
  fileData : string;
  fi_dateUpdated : Z;
  changed : bool
}.

(** Heap primitives behind object literals, property reads and writes. *)
Definition alloc (c : CacheFile) : Promise loc :=
  fun w =>
    let l := fresh (dom (heap w)) in
    (Resolved l,
     mkWorld (disk w) (clock w) (writeLog w) (<[l := c]> (heap w)) (localCache w)).

(** Reading through a reference. References come from [alloc] and are
    never freed, so the default is never used ([overlay_references_live]). *)
Definition deref (l : loc) : Promise CacheFile :=
  fun w => (Resolved (default ∅ (heap w !! l)), w).

(** [cacheFile[key] = entry] *)
Definition setProperty (l : loc) (key : string) (entry : CacheEntry) : Promise unit :=
  fun w =>
    (Resolved tt,
     mkWorld (disk w) (clock w) (writeLog w)
             (<[l := <[key := entry]> (default ∅ (heap w !! l))]> (heap w))
             (localCache w)).

(** [localCache.get(key)] *)
Definition localCache_get (key : string) : Promise (option loc) :=
  fun w => (Resolved (localCache w !! key), w).

(** [localCache.set(key, cacheFile)] *)
Definition localCache_set (key : string) (l : loc) : Promise unit :=
  fun w =>
    (Resolved tt,
     mkWorld (disk w) (clock w) (writeLog w) (heap w) (<[key := l]> (localCache w))).

(** [JSON.parse(data)]: a fresh object, or a [SyntaxError]. A text that
    is JSON but no bucket is beyond the model; it is not loaded either. *)
Definition JSON_parse (data : string) : Promise loc :=
  match JSON.parse data with
  | Some c => alloc c
  | None => throw (SyntaxError "Unexpected token in JSON")
  end.

(** [JSON.stringify(cacheFile)] *)
Definition JSON_stringify (l : loc) : Promise string :=
  let* c := deref l in resolve (JSON.stringify c).

(** [a.dateUpdated === b.dateUpdated && a.hash === b.hash]. The first
    argument is [cacheFile[filePath] || {}]. Only a cache entry has the
    two fields: on the empty object, on a number, on a method of
    [Object.prototype] and on [Object.prototype] itself they are
    [undefined], which equals no number. *)
Definition fileInfoComparer (a : option Value) (b : CacheEntry) : bool :=
  match a with
  | Some (VEntry a) => (dateUpdated a =? dateUpdated b) && (hash a =? hash b)
  | _ => false
  end.

(** The verdict [getCached] computes from what it read and the value it
    was given as the entry:
    [hash !== cacheEntry.hash || isNewer(dateUpdated, cacheEntry.dateUpdated)].
    On anything but a cache entry [cacheEntry.hash] is [undefined], which
    differs from every hash. *)
Definition changedVerdict (hash_ dateUpdated_ : Z) (cacheEntry : Value) : bool :=
  match cacheEntry with
  | VEntry cacheEntry =>
      negb (hash_ =? hash cacheEntry) || isNewer dateUpdated_ (dateUpdated cacheEntry)
  | _ => true
  end.

Section Cache.
Context `{cfg : Config}.

Definition getHashPath (filePath : string) : string :=
  let relative :=
    NodePath.relative cwd (NodePath.join [rootPath; "website"]) filePath in
  NodePath.join [rootPath; hashCacheDir; NodePath.dirname relative +:+ ".json"].

Definition getCacheFile (filePath : string) : Promise loc :=
  let hashPath := getHashPath filePath in
  let* localCacheFile := localCache_get hashPath in
  match localCacheFile with
  | Some l => resolve l
  | None =>
      catch_
        (then* data := readFile hashPath in
         let* cacheFile := JSON_parse data in
         let* _ := localCache_set hashPath cacheFile in
         resolve cacheFile)
        (fun err =>
           if decide (errCode err <> Some "ENOENT")
           then throw (Error (errMessage err))
           else alloc ∅)
  end.

Definition getCacheEntry (filePath : string) : Promise Value :=
  then* cacheFile := getCacheFile filePath in
  let* bucket := deref cacheFile in
  resolve (orElse (getProperty bucket filePath) (mkCacheEntry 0 0)).

Definition setCacheFile (hashPath : string) (cacheFile : loc) : Promise unit :=
  let* text := JSON_stringify cacheFile in
  writeFilep hashPath text.

Definition setCacheEntry (dateUpdated_ : Z) (filePath fileData_ : string)
    : Promise CacheEntry :=
  let cacheEntry := mkCacheEntry dateUpdated_ (getHash fileData_) in
  then* cacheFile := getCacheFile filePath in
  let* bucket := deref cacheFile in
  if fileInfoComparer (getProperty bucket filePath) cacheEntry then resolve cacheEntry
  else
    let* _ := setProperty cacheFile filePath cacheEntry in
    let hashPath := getHashPath filePath in
    then* _ := setCacheFile hashPath cacheFile in
    resolve cacheEntry.

Definition getCached (filePath : string) : Promise FileInfo :=
  let hashPath := getHashPath filePath in
  then* (stats, fileData_) := Promise_all2 (stat filePath) (readFile filePath) in
  then* cacheEntry := getCacheEntry hashPath in
  let hash_ := getHash fileData_ in
  let dateUpdated_ := ctime stats in
  let changed_ := changedVerdict hash_ dateUpdated_ cacheEntry in
  resolve (mkFileInfo filePath fileData_ dateUpdated_ changed_).

Definition updateCache (filePath : string) : Promise CacheEntry :=
  then* (stats, fileData_) := Promise_all2 (stat filePath) (readFile filePath) in
  setCacheEntry (ctime stats) filePath fileData_.

End Cache.

(* ===================================================================== *)
(** ** Vocabulary of the statements below *)
(* ===================================================================== *)

(** Nothing in memory moved: the heap of bucket objects and the overlay. *)
Definition sameMemory (w w' : World) : Prop :=
  heap w' = heap w /\ localCache w' = localCache w /\ clock w' = clock w.

(** Nothing on disk moved, and no write was issued. *)
Definition sameDisk (w w' : World) : Prop :=
  disk w' = disk w /\ writeLog w' = writeLog w /\ clock w' = clock w.

(** [m] relates every world it is started in to the one it leaves. *)
Definition preserves {A} (R : relation World) (m : Promise A) : Prop :=
  forall w, R w (snd (m w)).

(** The tracked file is given a new status-change time and content by
    something outside the cache. *)
Definition touch (filePath_ : string) (time : Z) (data : string) (w : World) : World :=
  mkWorld (<[filePath_ := File time data]> (disk w)) (clock w) (writeLog w)
          (heap w) (localCache w).

(** The bucket object a reference points to. *)
Definition bucketAt (w : World) (l : loc) : CacheFile := default ∅ (heap w !! l).

(** No [fs.writeFile] was carried out. *)
Definition noWrite (w w' : World) : Prop := writeLog w' = writeLog w.

Section LoadSpec.
Context `{cfg : Config}.

(** The ways a bucket load can go. *)
Inductive getCacheFile_spec (p : string) (w : World) : Outcome loc * World -> Prop :=
  | load_hit l :
      localCache w !! getHashPath p = Some l ->
      getCacheFile_spec p w (Resolved l, w)
  | load_parsed data c :
      localCache w !! getHashPath p = None ->
      fs_readFile (getHashPath p) w = (Resolved data, w) ->
      JSON.parse data = Some c ->
      getCacheFile_spec p w
        (Resolved (fresh (dom (heap w))),
         mkWorld (disk w) (clock w) (writeLog w)
                 (<[fresh (dom (heap w)) := c]> (heap w))
                 (<[getHashPath p := fresh (dom (heap w))]> (localCache w)))
  | load_malformed data :
      localCache w !! getHashPath p = None ->
      fs_readFile (getHashPath p) w = (Resolved data, w) ->
      JSON.parse data = None ->
      getCacheFile_spec p w (Rejected (Error "Unexpected token in JSON"), w)
  | load_missing err :
      localCache w !! getHashPath p = None ->
      fs_readFile (getHashPath p) w = (Rejected err, w) ->
      errCode err = Some "ENOENT" ->
      getCacheFile_spec p w
        (Resolved (fresh (dom (heap w))),
         mkWorld (disk w) (clock w) (writeLog w)
                 (<[fresh (dom (heap w)) := ∅]> (heap w)) (localCache w))
  | load_failed err :
      localCache w !! getHashPath p = None ->
      fs_readFile (getHashPath p) w = (Rejected err, w) ->
      errCode err <> Some "ENOENT" ->
      getCacheFile_spec p w (Rejected (Error (errMessage err)), w).

End LoadSpec.

(** A load or a query may add bucket objects and overlay entries; it
    changes nothing that was there and nothing on disk. *)
Definition onlyLoads (w w' : World) : Prop :=
  sameDisk w w' /\ heap w ⊆ heap w' /\ localCache w ⊆ localCache w'.

(** Every overlay entry points to a bucket object of the heap. *)
Definition liveOverlay (w : World) : Prop :=
  forall k l, localCache w !! k = Some l -> is_Some (heap w !! l).

Definition keepsLive (w w' : World) : Prop := liveOverlay w -> liveOverlay w'.

(* ===================================================================== *)
(** ** The scenarios of the specification, on a concrete configuration *)
(* ===================================================================== *)

Module Scenario.

Definition demo : Config := mkConfig "/repo" ".fs-hash" "/repo".

(** The tracked file and the document of its bucket. *)
Definition tracked : string := "/repo/website/a/b.txt".
Definition bucketDoc : string := "/repo/.fs-hash/a.json".
(** The document [getCached] turns to: the bucket of [bucketDoc]. *)
Definition outerDoc : string := "/repo/.fs-hash.json".

(** The project tree: the tracked file holds [x], last changed at 1000;
    the cache directory does not exist yet. *)
Definition tree : gmap string FsNode :=
  <[tracked := File 1000 "x"]>
    (<["/repo/website/a" := Directory 800]>
       (<["/repo/website" := Directory 800]>
          (<["/repo" := Directory 800]> ∅))).

(** Scenario A: the module is freshly loaded on the project tree. *)
Definition start : World := initialWorld tree 5000.

Definition committed : World := snd (@updateCache demo tracked start).

(** The same, on a disk where the outer document records, for the path
    [bucketDoc], the fingerprint of [x] at time 2000000. *)
Definition crowded : World :=
  initialWorld
    (<[outerDoc := File 900
         (JSON.stringify (<[bucketDoc := mkCacheEntry 2000000 (getHash "x")]> ∅))]>
       tree)
    5000.

Definition crowdedCommitted : World := snd (@updateCache demo tracked crowded).

(** The bucket document is a directory, or holds text that is no bucket. *)
Definition blocked : World :=
  initialWorld (<[bucketDoc := Directory 900]> tree) 5000.

Definition garbled : World :=
  initialWorld (<[bucketDoc := File 900 "{oops"]> tree) 5000.

(** A tracked file named [__proto__] in the working directory, holding
    [x] and last changed at 1000, and the commit of it. *)
Definition protoStart : World :=
  initialWorld (<["__proto__" := File 1000 "x"]> tree) 5000.

Definition protoCommitted : World := snd (@updateCache demo "__proto__" protoStart).

End Scenario.

(* ===================================================================== *)
(** ** More of the helpers: [flatten], [truncate], [executeCommands] *)
(* ===================================================================== *)

(** An array whose elements are values or arrays of the same kind
    ([Array<T | T[]>], nested as deep as [Array.isArray] finds it). *)
#[warnings="-register-all"]
Inductive Nested (A : Type) : Type :=
  | Item (a : A)
  | Items (arr : list (Nested A)).
Arguments Item {A} a.
Arguments Items {A} arr.

(** What [flatten]'s reducer appends for one element:
    [Array.isArray(item) ? flatten(item) : item]. *)
Fixpoint flattenItem {A} (item : Nested A) : list A :=
  match item with
  | Item a => [a]
  | Items arr => fold_left (fun out it => out ++ flattenItem it) arr []
  end.

(** [arr.reduce((out, item) => out.concat(...), [])] *)
Definition flatten {A} (arr : list (Nested A)) : list A :=
  fold_left (fun out item => out ++ flattenItem item) arr [].

(** [chainTasks(arr)] as exported: the array is flattened into the queue
    that [chainTasks] above runs. Every element is a function, as the type
    of [arr] says. *)
Definition chainTasksOf {A} (arr : list (Nested (Promise A))) : Promise (list A) :=
  chainTasks (flatten arr).

(** The tasks of a queue run one after the other from a world, each one
    resolving. *)
Inductive Runs {A} : list (Promise A) -> World -> list A -> World -> Prop :=
  | Runs_nil w : Runs [] w [] w
  | Runs_cons next queue w a w1 results w2 :
      next w = (Resolved a, w1) ->
      Runs queue w1 results w2 ->
      Runs (next :: queue) w (a :: results) w2.

(** [text.length > 60 ? text.slice(0, 60) + '...' : text] *)
Definition truncate (text : string) : string :=
  if (60 <? String.length text)%nat
  then String.substring 0 60 text +:+ "..."
  else text.

(** [s.split(sep)] for a one-character separator. *)
Fixpoint splitOn (sep : ascii) (s : string) : list string :=
  match s with
  | EmptyString => [EmptyString]
  | String c rest =>
      if Ascii.eqb c sep then EmptyString :: splitOn sep rest
      else match splitOn sep rest with
           | seg :: segs => String c seg :: segs
           | [] => [String c EmptyString]
           end
  end.

(** Whether a string has no occurrence of the character. *)
Fixpoint freeOf (sep : ascii) (s : string) : bool :=
  match s with
  | EmptyString => true
  | String c rest => negb (Ascii.eqb c sep) && freeOf sep rest
  end.

(** [type Task = (args?: string) => Promise<any>]: [None] is a call with
    [undefined]. [type TaskMap]: the own properties of the object, in the
    order of [Object.keys]. *)
Definition Task : Type := option string -> Promise unit.
Definition TaskMap : Type := list (string * Task).

(** [allTasks[taskName]] *)
Fixpoint lookupTask (taskName : string) (allTasks : TaskMap) : option Task :=
  match allTasks with
  | [] => None
  | (name, task) :: rest =>
      if String.eqb name taskName then Some task else lookupTask taskName rest
  end.

(** A text between double quotes. *)
Definition quoted (text : string) : string :=
  String JSON.dquote (text +:+ String JSON.dquote EmptyString).

(** The [switch] of [executeCommands]: the parameter to report, the name
    of the task and its argument. With one argument the destructuring
    [[taskName, taskArgs] = taskParam.split(':')] overwrites the default
    [''] of [taskArgs], by [undefined] when there is no colon. *)
Definition selectTask (taskNames argv : list string)
    : Promise (string * string * option string) :=
  match argv with
  | [] =>
      match taskNames with
      | [taskName] => resolve (taskName, taskName, Some EmptyString)
      | _ => throw (Error
               "You must provide a task name when there is more than one task")
      end
  | [taskParam] =>
      let parts := splitOn ":" taskParam in
      resolve (taskParam, default EmptyString (parts !! 0%nat), parts !! 1%nat)
  | _ =>
      let argText :=
        if (length taskNames =? 1)%nat then "zero or one" else "exactly one" in
      throw (Error ("There must be " +:+ argText +:+ " arguments after "
                    +:+ quoted "exec_now"))
  end.

(** A [TypeError] is an [Error] without [code]. *)
Definition TypeError (message : string) : JsError := Error message.

(** The message names [task], which is [undefined] when this is thrown.
    The map is an object literal, so a name of [objectPrototype] that is
    no property of its own is inherited and passes the test [!task]; what
    is found there is no task, and calling it as one ends in a [TypeError]
    at the call (it is not a function, it refuses its [this], or what it
    returns has no [then]). The text of that error depends on the name; one
    text stands for all of them here. *)
Definition executeCommands (allTasks : TaskMap) (argv : list string) : Promise string :=
  let taskNames := map fst allTasks in
  let* (taskParam, taskName, taskArgs) := selectTask taskNames argv in
  match lookupTask taskName allTasks with
  | Some task => then* _ := task taskArgs in resolve taskParam
  | None =>
      if decide (taskName ∈ objectPrototype)
      then throw (TypeError "task(...).then is not a function")
      else throw (Error ("No task named " +:+ quoted "undefined"))
  end.

(* ===================================================================== *)
(** ** More vocabulary *)
(* ===================================================================== *)


(** No two overlay entries share a bucket object. *)
Definition distinctBuckets (w : World) : Prop :=
  forall k1 k2 l,
    localCache w !! k1 = Some l -> localCache w !! k2 = Some l -> k1 = k2.

Definition soundOverlay (w : World) : Prop := liveOverlay w /\ distinctBuckets w.

Definition keepsSound (w w' : World) : Prop := soundOverlay w -> soundOverlay w'.

(** Only directories stamped with the current time were added to the
    disk; everything that was there is as it was. *)
Definition onlyNewDirectories (w w' : World) : Prop :=
  clock w' = clock w
  /\ disk w ⊆ disk w'
  /\ forall k node, disk w' !! k = Some node ->
        disk w !! k = Some node \/ node = Directory (clock w).

(** Something outside puts a node at a path of the disk. *)
Definition place (path : string) (node : FsNode) (w : World) : World :=
  mkWorld (<[path := node]> (disk w)) (clock w) (writeLog w) (heap w) (localCache w).

(** A directory is at the path. *)
Definition isDirectoryAt (w : World) (path : string) : Prop :=
  exists t, disk w !! path = Some (Directory t).

(* ===================================================================== *)
(** ** More worlds on the concrete configuration *)
(* ===================================================================== *)

Module Fixture.
Import Scenario.

(** After the commit of Scenario A, the bucket of the tracked file is
    loaded from its document: the overlay holds it from then on. *)
Definition loaded : World := snd (@getCacheFile demo tracked committed).

(** The same, once the document can no longer be written. *)
Definition locked : World := place bucketDoc (Faulty "EACCES") loaded.

(** A file of another directory, hence of another bucket, and a tracked
    path with no file behind it. *)
Definition elsewhere : string := "/repo/website/z/q.txt".

(** Directories to make, and a file to write below one that is missing. *)
Definition deep : string := "/repo/.fs-hash/deep/".
Definition report : string := "/repo/out/log.txt".

(** A task map with one task, which writes its argument to a file. *)
Definition build : Task := fun args => writeFile "/repo/built.txt" (default "all" args).
Definition tasks : TaskMap := [("build", build)].

(** Tasks of a chain: two directories to make, the second in a nested
    array, and one that exists already. *)
Definition twoDirectories : list (Nested (Promise unit)) :=
  [Item (mkdir "/repo/x"); Items [Item (mkdir "/repo/y")]].

End Fixture.

(* ===================================================================== *)
(** * Facts *)
(* ===================================================================== *)

(* ===================================================================== *)
(** ** The fingerprint *)
(* ===================================================================== *)

Module Int32Facts.
Import Int32.

Lemma toInt32_range z : in_range (toInt32 z).
Proof.
  unfold in_range, toInt32.
  pose proof (Z.mod_pos_bound (z + 2 ^ 31) (2 ^ 32) ltac:(lia)). lia.
Qed.

Lemma toInt32_id z : in_range z -> toInt32 z = z.
Proof.
  unfold in_range, toInt32. intros Hz.
  rewrite Z.mod_small by lia. lia.
Qed.

Lemma or_range a b : in_range (or a b).
Proof. apply toInt32_range. Qed.

Lemma or_zero a : or a 0 = toInt32 a.
Proof.
  unfold or. change (toInt32 0) with 0. rewrite Z.lor_0_r.
  apply toInt32_id, toInt32_range.
Qed.

End Int32Facts.

Section Fingerprint.
Import Int32 Int32Facts.

Lemma hash_step_range h c : in_range (hash_step h c).
Proof. apply or_range. Qed.

Lemma fold_left_invariant {A B} (P : A -> Prop) (f : A -> B -> A) l :
  (forall a b, P (f a b)) -> forall a, P a -> P (fold_left f l a).
Proof.
  intros Hf. induction l as [|b l IH]; intros a Ha; [exact Ha|].
  cbn [fold_left]. apply IH, Hf.
Qed.

Lemma hash_loop_range codes h : in_range h -> in_range (hash_loop h codes).
Proof.
  unfold hash_loop. apply (fold_left_invariant in_range hash_step), hash_step_range.
Qed.

Lemma toInt32_mod z : toInt32 z mod 2 ^ 32 = z mod 2 ^ 32.
Proof.
  unfold toInt32.
  rewrite Zminus_mod, Zmod_mod, <- Zminus_mod. f_equal. lia.
Qed.

Lemma toInt32_congr a b : a mod 2 ^ 32 = b mod 2 ^ 32 -> toInt32 a = toInt32 b.
Proof.
  intros H. unfold toInt32.
  rewrite (Zplus_mod a), (Zplus_mod b), H. reflexivity.
Qed.

(** The loop body is the step of the classic multiply-by-31 string hash,
    wrapped to 32 bits. *)
Lemma hash_step_31 h c : hash_step h c = toInt32 (31 * h + c).
Proof.
  unfold hash_step. rewrite or_zero. apply toInt32_congr.
  unfold shl. change (5 mod 32) with 5. rewrite Z.shiftl_mul_pow2 by lia.
  rewrite Zplus_mod, Zminus_mod, toInt32_mod.
  rewrite Zmult_mod, toInt32_mod, <- Zmult_mod, <- Zminus_mod, <- Zplus_mod.
  f_equal. lia.
Qed.

(** C9. The fingerprint of the empty text is 0; the fingerprint of any
    text is a 32-bit signed integer; and it is a function of the text
    alone: equal texts have equal fingerprints. *)
Theorem getHash_deterministic :
  getHash EmptyString = 0
  /\ (forall s, - 2 ^ 31 <= getHash s < 2 ^ 31)
  /\ (forall s s', s = s' -> getHash s = getHash s').
Proof.
  split_and!; [reflexivity| |by intros s s' ->].
  intros s. unfold getHash. destruct (String.length s =? 0)%nat; [lia|].
  apply hash_loop_range. unfold in_range. lia.
Qed.

End Fingerprint.

(* ---- path facts ---- *)
(* ===================================================================== *)
(** ** Paths, and the cases of a bucket load *)
(* ===================================================================== *)

Module NodePathFacts.
Import NodePath.

(** The examples of Node's documentation of [path]. *)
Example dirname_doc : dirname "/foo/bar/baz/asdf/quux" = "/foo/bar/baz/asdf".
Proof. reflexivity. Qed.

Example join_doc :
  join ["/foo"; "bar"; "baz/asdf"; "quux"; ".."] = "/foo/bar/baz/asdf".
Proof. reflexivity. Qed.

Example normalize_doc :
  normalize "/foo/bar//baz/asdf/quux/.." = "/foo/bar/baz/asdf".
Proof. reflexivity. Qed.

Example relative_doc :
  relative "/" "/data/orandea/test/aaa" "/data/orandea/impl/bbb" = "../../impl/bbb".
Proof. reflexivity. Qed.

Example resolve_doc : resolve "/home/myself/node" "wwwroot/static_files/../gif/image.gif"
  = "/home/myself/node/wwwroot/gif/image.gif".
Proof. reflexivity. Qed.

Lemma app_nonempty_r (s t : string) : t <> EmptyString -> s +:+ t <> EmptyString.
Proof. destruct s; [done|discriminate]. Qed.

Lemma normalize_nonempty p : normalize p <> EmptyString.
Proof.
  unfold normalize.
  destruct (String.eqb p EmptyString); [discriminate|].
  destruct (String.eqb (normalizeString p _) EmptyString) eqn:Hq.
  - destruct (starts_with_slash p); [discriminate|].
    destruct (ends_with_slash p); discriminate.
  - apply String.eqb_neq in Hq.
    destruct (starts_with_slash p); [discriminate|].
    destruct (ends_with_slash p); [|exact Hq].
    destruct (normalizeString p _); [done|discriminate].
Qed.

Lemma join_nonempty args : join args <> EmptyString.
Proof.
  unfold join. destruct (filter _ args); [discriminate|apply normalize_nonempty].
Qed.
End NodePathFacts.

Section Facts.
Context `{cfg : Config}.

Lemma getHashPath_nonempty p : getHashPath p <> EmptyString.
Proof. apply NodePathFacts.join_nonempty. Qed.

Lemma assert_ok_nonempty value message w :
  value <> EmptyString -> assert_ok value message w = (Resolved tt, w).
Proof. intros H. unfold assert_ok. destruct (decide _); [done|reflexivity]. Qed.

Lemma readFile_nonempty filename w :
  filename <> EmptyString -> readFile filename w = fs_readFile filename w.
Proof.
  intros H. unfold readFile, seq_. rewrite assert_ok_nonempty by done. reflexivity.
Qed.

Lemma fs_readFile_cases filename w :
  (exists data, fs_readFile filename w = (Resolved data, w)) \/
  (exists err, fs_readFile filename w = (Rejected err, w)).
Proof.
  unfold fs_readFile. destruct (disk w !! filename) as [[]|]; eauto.
Qed.

Lemma getCacheFile_ok p w : getCacheFile_spec p w (getCacheFile p w).
Proof.
  unfold getCacheFile, seq_, localCache_get.
  destruct (localCache w !! getHashPath p) as [l|] eqn:Hc.
  { by apply load_hit. }
  unfold catch_, then_.
  rewrite readFile_nonempty by apply getHashPath_nonempty.
  destruct (fs_readFile_cases (getHashPath p) w) as [[data Hr]|[err Hr]]; rewrite Hr.
  - unfold JSON_parse, seq_. destruct (JSON.parse data) as [c|] eqn:Hp.
    + unfold alloc, localCache_set, resolve; cbn. by eapply load_parsed.
    + cbn. destruct (decide _) as [_|Hn]; [|by destruct Hn].
      by eapply load_malformed.
  - destruct (decide (errCode err <> Some "ENOENT")) as [Hn|Hn]; cbn.
    + by eapply load_failed.
    + apply dec_stable in Hn. unfold alloc; cbn. by eapply load_missing.
Qed.
End Facts.

(* ===================================================================== *)
(** ** Decoding what was encoded *)
(* ===================================================================== *)

Module JSONFacts.
Import JSON.

Lemma parse_chars_print_char c s :
  parse_chars (print_char c s) = cons_char c (parse_chars s).
Proof. destruct c as [[] [] [] [] [] [] [] []]; reflexivity. Qed.

Lemma parse_chars_print_chars k rest :
  parse_chars (print_chars k (String dquote rest)) = Some (Some k, rest).
Proof.
  induction k as [|c k IH]; [reflexivity|].
  cbn [print_chars]. rewrite parse_chars_print_char, IH. reflexivity.
Qed.

Lemma app_cons c s t : String c s +:+ t = String c (s +:+ t).
Proof. reflexivity. Qed.

Lemma read_uint_string_of_uint u rest :
  ends_number rest ->
  read_uint (NilEmpty.string_of_uint u +:+ rest) = (u, rest).
Proof.
  intros Hrest.
  induction u as [|u IH|u IH|u IH|u IH|u IH|u IH|u IH|u IH|u IH|u IH];
    cbn [NilEmpty.string_of_uint];
    try (rewrite app_cons; cbn [read_uint digit]; rewrite IH; reflexivity).
  change (EmptyString +:+ rest) with rest.
  destruct rest as [|c rest]; [reflexivity|].
  destruct Hrest as [Hdigit _]. cbn [read_uint]. rewrite Hdigit. reflexivity.
Qed.

Lemma unorm_to_uint p : unorm (Pos.to_uint p) = Pos.to_uint p.
Proof.
  rewrite <- (DecimalPos.Unsigned.to_of (Pos.to_uint p)).
  rewrite DecimalPos.Unsigned.of_to. reflexivity.
Qed.

(** The characters a number can start with. *)
Lemma string_of_uint_head u :
  u <> Nil ->
  exists c s, NilEmpty.string_of_uint u = String c s /\ is_Some (digit c).
Proof.
  destruct u; [congruence| ..]; intros _; eexists _, _; split;
    first [reflexivity | by eexists].
Qed.

Lemma print_int_head z rest :
  exists c s, print_int z rest = String c s /\ (is_Some (digit c) \/ c = "-"%char).
Proof.
  unfold print_int. destruct z as [|p|p]; cbn [Z.to_int NilEmpty.string_of_int].
  - eexists _, _. split; [reflexivity|]. left. by eexists.
  - destruct (string_of_uint_head (Pos.to_uint p)) as (c & s & -> & Hc);
      [apply DecimalPos.Unsigned.to_uint_nonnil|].
    eexists _, _. split; [apply app_cons|by left].
  - eexists _, _. split; [apply app_cons|by right].
Qed.

Lemma parse_int_print_int z rest :
  ends_number rest ->
  parse_int (print_int z rest) = Some (z, rest).
Proof.
  intros Hrest. unfold print_int, parse_int.
  rewrite <- (DecimalZ.of_to z) at 2.
  destruct z as [|p|p]; cbn [Z.to_int NilEmpty.string_of_int].
  - pose proof (read_uint_string_of_uint (D0 Nil) rest Hrest) as Hr.
    cbn [NilEmpty.string_of_uint] in Hr |- *.
    rewrite !app_cons in Hr |- *.
    change (("0" =? "-")%char) with false. cbv iota beta.
    rewrite Hr. reflexivity.
  - destruct (string_of_uint_head (Pos.to_uint p)) as (c & s & Hs & Hc);
      [apply DecimalPos.Unsigned.to_uint_nonnil|].
    pose proof (read_uint_string_of_uint (Pos.to_uint p) rest Hrest) as Hr.
    rewrite Hs in Hr |- *. rewrite app_cons in Hr |- *.
    assert (Ascii.eqb c "-" = false) as ->.
    { destruct Hc as [d Hd]. apply Ascii.eqb_neq. intros ->. discriminate. }
    rewrite Hr, unorm_to_uint.
    destruct (uint_eq_dec _ _); [reflexivity|congruence].
  - rewrite app_cons. change (("-" =? "-")%char) with true. cbv iota beta.
    rewrite (read_uint_string_of_uint _ _ Hrest), unorm_to_uint.
    destruct (uint_eq_dec _ _); [reflexivity|congruence].
Qed.

Lemma parse_number_print_int z rest :
  ends_number rest ->
  parse_number (print_int z rest) = Some (JNumber (Some z), rest).
Proof.
  intros Hrest. unfold parse_number.
  rewrite parse_int_print_int by done. cbn [mbind option_bind].
  destruct rest as [|c rest]; [reflexivity|].
  destruct Hrest as (_ & Hdot & He & HE).
  unfold parse_fraction. rewrite (proj2 (Ascii.eqb_neq _ _) Hdot).
  cbn [mbind option_bind]. unfold parse_exponent.
  by rewrite (proj2 (Ascii.eqb_neq _ _) He), (proj2 (Ascii.eqb_neq _ _) HE).
Qed.

(** A digit or a minus sign starts nothing but a number. *)
Lemma number_start c :
  is_Some (digit c) \/ c = "-"%char ->
  is_ws c = false
  /\ Ascii.eqb c "{" = false /\ Ascii.eqb c "[" = false
  /\ Ascii.eqb c dquote = false /\ Ascii.eqb c "t" = false
  /\ Ascii.eqb c "f" = false /\ Ascii.eqb c "n" = false.
Proof.
  intros [[d Hd]| ->]; [|by repeat split].
  destruct c as [[] [] [] [] [] [] [] []]; try discriminate Hd; by repeat split.
Qed.

Lemma parse_value_print_int fuel z rest :
  ends_number rest ->
  parse_value (S fuel) (print_int z rest) = Some (JNumber (Some z), rest).
Proof.
  intros Hrest. pose proof (parse_number_print_int z rest Hrest) as Hn.
  destruct (print_int_head z rest) as (c & s & Hs & Hc). rewrite Hs in Hn |- *.
  destruct (number_start c Hc) as (Hws & H1 & H2 & H3 & H4 & H5 & H6).
  cbn [parse_value skip_ws]. rewrite Hws. by rewrite H1, H2, H3, H4, H5, H6.
Qed.

Lemma ends_number_lit c token rest :
  digit c = None -> c <> "."%char -> c <> "e"%char -> c <> "E"%char ->
  ends_number (lit (String c token) rest).
Proof. by repeat split. Qed.

Lemma skip_ws_nonws c s : is_ws c = false -> skip_ws (String c s) = String c s.
Proof. intros H. cbn [skip_ws]. by rewrite H. Qed.

(** One member: its key, the colon, its value, and what comes next. *)
Lemma parse_members_step fuel k text :
  parse_members (S fuel) (print_string k (lit ":" text))
  = '(v, s3) ← parse_value fuel text;
    match skip_ws s3 with
    | String c s4 =>
        if Ascii.eqb c "," then
          '(ms, s5) ← parse_members fuel s4; Some ((Some k, v) :: ms, s5)
        else if Ascii.eqb c "}" then Some ([(Some k, v)], s4)
        else None
    | EmptyString => None
    end.
Proof.
  unfold print_string. cbn [parse_members].
  rewrite skip_ws_nonws by reflexivity.
  rewrite Ascii.eqb_refl, parse_chars_print_chars. cbn [mbind option_bind].
  change (lit ":" text) with (String ":" text).
  rewrite skip_ws_nonws by reflexivity.
  change ((":" =? ":")%char) with true. cbv iota. reflexivity.
Qed.

Lemma parse_value_print_entry fuel e rest :
  parse_value (S (S (S (S fuel)))) (print_entry e rest) = Some (tree_of_entry e, rest).
Proof.
  destruct e as [d h]. unfold print_entry, tree_of_entry; cbn [dateUpdated hash].
  change (lit "{" ?s) with (String "{" s).
  remember (S (S fuel)) as fuel2 eqn:Hfuel.
  cbn [parse_value]. rewrite skip_ws_nonws by reflexivity.
  change (("{" =? "{")%char) with true. cbv iota.
  unfold print_string at 1. rewrite skip_ws_nonws by reflexivity.
  change ((dquote =? "}")%char) with false. cbv iota.
  fold (print_string "dateUpdated"
          (lit ":" (print_int d (lit "," (print_string "hash"
             (lit ":" (print_int h (lit "}" rest)))))))).
  rewrite parse_members_step. subst fuel2.
  rewrite parse_value_print_int by (apply ends_number_lit; done).
  cbn [mbind option_bind].
  change (lit "," ?s) with (String "," s).
  rewrite skip_ws_nonws by reflexivity.
  change (("," =? ",")%char) with true. cbv iota.
  rewrite parse_members_step.
  rewrite parse_value_print_int by (apply ends_number_lit; done).
  cbn [mbind option_bind].
  change (lit "}" ?s) with (String "}" s).
  rewrite skip_ws_nonws by reflexivity.
  change (("}" =? ",")%char) with false. change (("}" =? "}")%char) with true.
  reflexivity.
Qed.

Lemma parse_members_print_members ms fuel rest :
  ms <> [] -> (length ms + 4 <= fuel)%nat ->
  parse_members fuel (print_members ms (lit "}" rest))
  = Some (map tree_of_member ms, rest).
Proof.
  revert fuel. induction ms as [|m ms IH]; intros fuel Hne Hfuel; [done|].
  destruct fuel as [|[|[|[|[|fuel]]]]]; cbn [length] in Hfuel; try lia.
  destruct m as [k e].
  destruct ms as [|m' ms].
  - cbn [print_members]. unfold print_member. cbn [fst snd].
    rewrite parse_members_step, parse_value_print_entry. cbn [mbind option_bind].
    change (lit "}" rest) with (String "}" rest).
    rewrite skip_ws_nonws by reflexivity. reflexivity.
  - change (print_members ((k, e) :: m' :: ms) (lit "}" rest))
      with (print_member (k, e) (lit "," (print_members (m' :: ms) (lit "}" rest)))).
    unfold print_member at 1. cbn [fst snd].
    rewrite parse_members_step, parse_value_print_entry. cbn [mbind option_bind].
    change (lit "," ?s) with (String "," s).
    rewrite skip_ws_nonws by reflexivity.
    change (("," =? ",")%char) with true. cbv iota.
    rewrite IH; [reflexivity|done|]. cbn [length] in Hfuel |- *. lia.
Qed.

Lemma length_app (s t : string) :
  String.length (s +:+ t) = (String.length s + String.length t)%nat.
Proof. induction s as [|c s IH]; [reflexivity|]. rewrite app_cons. cbn. lia. Qed.

Lemma length_print_char c rest :
  (String.length rest < String.length (print_char c rest))%nat.
Proof.
  unfold print_char.
  repeat match goal with |- context [if ?b then _ else _] => destruct b end;
    cbn [String.length]; lia.
Qed.

Lemma length_print_chars k rest :
  (String.length rest <= String.length (print_chars k rest))%nat.
Proof.
  induction k as [|c k IH]; cbn [print_chars]; [lia|].
  pose proof (length_print_char c (print_chars k rest)). lia.
Qed.

Lemma le_lit token rest :
  (String.length rest <= String.length (lit token rest))%nat.
Proof. unfold lit. rewrite length_app. lia. Qed.

Lemma le_print_string k rest :
  (2 + String.length rest <= String.length (print_string k rest))%nat.
Proof.
  unfold print_string. cbn [String.length].
  pose proof (length_print_chars k (String dquote rest)) as H.
  cbn [String.length] in H. lia.
Qed.

Lemma le_print_int z rest :
  (String.length rest <= String.length (print_int z rest))%nat.
Proof. unfold print_int. rewrite length_app. lia. Qed.

Lemma length_lit1 c rest :
  String.length (lit (String c EmptyString) rest) = S (String.length rest).
Proof. reflexivity. Qed.

Lemma length_print_member m rest :
  (5 + String.length rest <= String.length (print_member m rest))%nat.
Proof.
  unfold print_member, print_entry.
  set (s9 := lit "}" rest).
  set (s8 := print_int (hash (snd m)) s9).
  set (s7 := lit ":" s8).
  set (s6 := print_string "hash" s7).
  set (s5 := lit "," s6).
  set (s4 := print_int (dateUpdated (snd m)) s5).
  set (s3 := lit ":" s4).
  set (s2 := print_string "dateUpdated" s3).
  set (s1 := lit "{" s2).
  set (s0 := lit ":" s1).
  assert (String.length s9 = S (String.length rest)) by apply length_lit1.
  assert (String.length s9 <= String.length s8)%nat by apply le_print_int.
  assert (String.length s7 = S (String.length s8)) by apply length_lit1.
  assert (2 + String.length s7 <= String.length s6)%nat by apply le_print_string.
  assert (String.length s5 = S (String.length s6)) by apply length_lit1.
  assert (String.length s5 <= String.length s4)%nat by apply le_print_int.
  assert (String.length s3 = S (String.length s4)) by apply length_lit1.
  assert (2 + String.length s3 <= String.length s2)%nat by apply le_print_string.
  assert (String.length s1 = S (String.length s2)) by apply length_lit1.
  assert (String.length s0 = S (String.length s1)) by apply length_lit1.
  pose proof (le_print_string (fst m) s0).
  lia.
Qed.

Lemma length_print_members ms rest :
  (5 * length ms + String.length rest <= String.length (print_members ms rest))%nat.
Proof.
  induction ms as [|m ms IH]; [cbn; lia|].
  destruct ms as [|m' ms].
  - pose proof (length_print_member m rest). cbn in *. lia.
  - change (print_members (m :: m' :: ms) rest)
      with (print_member m (lit "," (print_members (m' :: ms) rest))).
    pose proof (length_print_member m (lit "," (print_members (m' :: ms) rest))).
    pose proof (le_lit "," (print_members (m' :: ms) rest)).
    cbn [length] in *. lia.
Qed.

Lemma entry_of_tree e : entry_of (tree_of_entry e) = Some e.
Proof. by destruct e. Qed.

Lemma member_of_tree m : member_of (tree_of_member m) = Some m.
Proof.
  destruct m as [k e]. unfold member_of, tree_of_member. cbn [fst snd mbind option_bind].
  by rewrite entry_of_tree.
Qed.

Lemma mapM_member_of ms : mapM member_of (map tree_of_member ms) = Some ms.
Proof.
  apply mapM_Some. induction ms as [|m ms IH]; constructor; [apply member_of_tree|done].
Qed.

Lemma object_of_map_to_list (m : gmap string CacheEntry) :
  object_of_members (map_to_list m) = m.
Proof.
  unfold object_of_members.
  transitivity (list_to_map (map_to_list m) : gmap string CacheEntry);
    [|apply list_to_map_to_list].
  symmetry. apply list_to_map_proper; [apply NoDup_fst_map_to_list|].
  symmetry. apply reverse_Permutation.
Qed.

(** The text of a bucket is read as the tree of its own properties. *)
Lemma parse_text_stringify (c : CacheFile) :
  parse_text (stringify c) = Some (JObject (map tree_of_member (map_to_list (own c)))).
Proof.
  unfold parse_text, stringify. change (lit "{" ?s) with (String "{" s).
  cbn [String.length parse_value]. rewrite skip_ws_nonws by reflexivity.
  change (("{" =? "{")%char) with true. cbv iota.
  destruct (map_to_list (own c)) as [|m ms] eqn:Hl.
  - reflexivity.
  - pose proof (length_print_members (m :: ms) (lit "}" EmptyString)) as Hlen.
    rewrite (parse_members_print_members (m :: ms)); [| done | cbn [length] in *; lia].
    destruct m as [k e]. destruct ms as [|m' ms].
    + cbn [print_members]. unfold print_member, print_string.
      rewrite skip_ws_nonws by reflexivity. reflexivity.
    + change (print_members ((k, e) :: m' :: ms) (lit "}" EmptyString))
        with (print_member (k, e) (lit "," (print_members (m' :: ms) (lit "}" EmptyString)))).
      unfold print_member, print_string.
      rewrite skip_ws_nonws by reflexivity. reflexivity.
Qed.

(** Decoding what the encoder wrote gives the own properties back, in an
    object of the usual prototype. *)
Theorem parse_stringify (c : CacheFile) :
  parse (stringify c) = Some (mkCacheFile (own c) None).
Proof.
  unfold parse. rewrite parse_text_stringify. cbn [mbind option_bind bucket_of].
  rewrite mapM_member_of. cbn [mbind option_bind].
  by rewrite object_of_map_to_list.
Qed.

Lemma stringify_nonempty (c : CacheFile) : stringify c <> EmptyString.
Proof. unfold stringify, lit. discriminate. Qed.

(** A text that is no JSON is no bucket. *)
Lemma parse_text_None s : parse_text s = None -> parse s = None.
Proof. unfold parse. by intros ->. Qed.

End JSONFacts.

(* ===================================================================== *)
(** ** Frames: what an operation leaves alone *)
(* ===================================================================== *)

Section Frames.
Context {R : relation World} `{!Reflexive R} `{!Transitive R}.

Lemma snd_settle {A} (r : Outcome A * World) : snd (settle r) = snd r.
Proof. by destruct r as [[] ?]. Qed.

Lemma preserves_resolve {A} (a : A) : preserves R (resolve a).
Proof. intros w. reflexivity. Qed.

Lemma preserves_reject {A} err : preserves R (@reject A err).
Proof. intros w. reflexivity. Qed.

Lemma preserves_throw {A} err : preserves R (@throw A err).
Proof. intros w. reflexivity. Qed.

Lemma preserves_seq {A B} (m : Promise A) (k : A -> Promise B) :
  preserves R m -> (forall a, preserves R (k a)) -> preserves R (seq_ m k).
Proof.
  intros Hm Hk w. unfold seq_. specialize (Hm w).
  destruct (m w) as [[a|err|err] w1]; cbn in *; [|done..].
  etransitivity; [exact Hm|apply Hk].
Qed.

Lemma preserves_then {A B} (m : Promise A) (k : A -> Promise B) :
  preserves R m -> (forall a, preserves R (k a)) -> preserves R (then_ m k).
Proof.
  intros Hm Hk w. unfold then_. specialize (Hm w).
  destruct (m w) as [[a|err|err] w1]; cbn in *; [|done..].
  rewrite snd_settle. etransitivity; [exact Hm|apply Hk].
Qed.

Lemma preserves_catch {A} (m : Promise A) (h : JsError -> Promise A) :
  preserves R m -> (forall err, preserves R (h err)) -> preserves R (catch_ m h).
Proof.
  intros Hm Hh w. unfold catch_. specialize (Hm w).
  destruct (m w) as [[a|err|err] w1]; cbn in *; [done| |done].
  rewrite snd_settle. etransitivity; [exact Hm|apply Hh].
Qed.

Lemma preserves_new_Promise {A} (m : Promise A) :
  preserves R m -> preserves R (new_Promise m).
Proof. intros Hm w. unfold new_Promise. rewrite snd_settle. apply Hm. Qed.

Lemma preserves_all2 {A B} (m1 : Promise A) (m2 : Promise B) :
  preserves R m1 -> preserves R m2 -> preserves R (Promise_all2 m1 m2).
Proof.
  intros H1 H2 w. unfold Promise_all2. specialize (H1 w).
  destruct (m1 w) as [[a|err|err] w1]; cbn in *; [| |done];
    (specialize (H2 w1); destruct (m2 w1) as [[b|err'|err'] w2]; cbn in *;
     etransitivity; eassumption).
Qed.

Lemma preserves_chainTasks {A} (queue : list (Promise A)) :
  Forall (preserves R) queue -> preserves R (chainTasks queue).
Proof.
  induction 1 as [|next queue Hnext _ IH]; cbn [chainTasks].
  - apply preserves_resolve.
  - apply preserves_then; [done|]. intros data.
    apply preserves_then; [done|]. intros results. apply preserves_resolve.
Qed.

Lemma preserves_assert_ok value message : preserves R (assert_ok value message).
Proof. intros w. unfold assert_ok. destruct (decide _); reflexivity. Qed.

Lemma preserves_fs_readFile filename : preserves R (fs_readFile filename).
Proof. intros w. unfold fs_readFile. destruct (disk w !! filename) as [[]|]; reflexivity. Qed.

Lemma preserves_fs_stat filename : preserves R (fs_stat filename).
Proof. intros w. unfold fs_stat. destruct (disk w !! filename) as [[]|]; reflexivity. Qed.

Lemma preserves_fs_access src : preserves R (fs_access src).
Proof. intros w. unfold fs_access. destruct (disk w !! src) as [[]|]; reflexivity. Qed.

End Frames.

(** Frame goals follow the shape of the code. *)
Ltac frame :=
  repeat first
    [ progress intros
    | match goal with
      | |- preserves _ (resolve _) => apply preserves_resolve
      | |- preserves _ (reject _) => apply preserves_reject
      | |- preserves _ (throw _) => apply preserves_throw
      | |- preserves _ (assert_ok _ _) => apply preserves_assert_ok
      | |- preserves _ (fs_readFile _) => apply preserves_fs_readFile
      | |- preserves _ (fs_stat _) => apply preserves_fs_stat
      | |- preserves _ (fs_access _) => apply preserves_fs_access
      | |- preserves _ (seq_ _ _) => apply preserves_seq
      | |- preserves _ (then_ _ _) => apply preserves_then
      | |- preserves _ (catch_ _ _) => apply preserves_catch
      | |- preserves _ (new_Promise _) => apply preserves_new_Promise
      | |- preserves _ (Promise_all2 _ _) => apply preserves_all2
      | |- preserves _ (if ?b then _ else _) => destruct b
      | |- preserves _ (let (_, _) := ?x in _) => destruct x
      end ].

Section ReadFrames.
Context {R : relation World} `{!Reflexive R} `{!Transitive R}.

Lemma preserves_readFile filename : preserves R (readFile filename).
Proof. unfold readFile. frame. Qed.

Lemma preserves_stat filename : preserves R (stat filename).
Proof. unfold stat. frame. Qed.

Lemma preserves_exists src : preserves R (exists_ src).
Proof. unfold exists_. frame. Qed.

End ReadFrames.


Global Instance sameMemory_refl : Reflexive sameMemory.
Proof. by intros w. Qed.
Global Instance sameMemory_trans : Transitive sameMemory.
Proof. intros w1 w2 w3 (?&?&?) (?&?&?). unfold sameMemory. split_and!; congruence. Qed.
Global Instance sameDisk_refl : Reflexive sameDisk.
Proof. by intros w. Qed.
Global Instance sameDisk_trans : Transitive sameDisk.
Proof. intros w1 w2 w3 (?&?&?) (?&?&?). unfold sameDisk. split_and!; congruence. Qed.

Global Instance noWrite_refl : Reflexive noWrite.
Proof. by intros w. Qed.
Global Instance noWrite_trans : Transitive noWrite.
Proof. intros w1 w2 w3 ??. unfold noWrite in *. congruence. Qed.

(** Whatever [fs.mkdir] leaves alone, [mkdirp] leaves alone. *)
Section MkdirFrames.
Context {R : relation World} `{!Reflexive R} `{!Transitive R}.
Hypothesis R_fs_mkdir : forall target, preserves R (fs_mkdir target).

Lemma preserves_mkdir target : preserves R (mkdir target).
Proof. unfold mkdir. frame. apply R_fs_mkdir. Qed.

Lemma preserves_mkdirpTask partialPath : preserves R (mkdirpTask partialPath).
Proof.
  unfold mkdirpTask. frame;
    first [apply preserves_exists | apply preserves_stat | apply preserves_mkdir].
Qed.

Lemma preserves_mkdirp target : preserves R (mkdirp target).
Proof.
  unfold mkdirp. frame. apply preserves_chainTasks, Forall_forall.
  intros task (partialPath & -> & _)%list_elem_of_fmap.
  apply preserves_mkdirpTask.
Qed.

End MkdirFrames.

Lemma sameMemory_fs_mkdir target : preserves sameMemory (fs_mkdir target).
Proof. intros w. unfold fs_mkdir. by destruct (disk w !! target). Qed.

Lemma noWrite_fs_mkdir target : preserves noWrite (fs_mkdir target).
Proof. intros w. unfold fs_mkdir. by destruct (disk w !! target). Qed.

Lemma sameMemory_fs_writeFile target text : preserves sameMemory (fs_writeFile target text).
Proof. intros w. unfold fs_writeFile. by destruct (disk w !! target) as [[]|]. Qed.

Lemma settle_resolved {A} (r : Outcome A * World) a w :
  settle r = (Resolved a, w) -> r = (Resolved a, w).
Proof. by destruct r as [[] ?]. Qed.

(** A write that went through left the text at the target, logged it, and
    touched nothing in memory. *)
Lemma writeFilep_resolved target text w w' :
  writeFilep target text w = (Resolved tt, w') ->
  disk w' !! target = Some (File (clock w) text)
  /\ writeLog w' = (target, text) :: writeLog w
  /\ sameMemory w w'.
Proof.
  unfold writeFilep, seq_, assert_ok.
  destruct (decide (target = EmptyString)); [done|].
  destruct (decide (text = EmptyString)); [done|]. cbn.
  unfold then_.
  pose proof (preserves_mkdirp sameMemory_fs_mkdir (NodePath.dirname target) w) as Hmem.
  pose proof (preserves_mkdirp noWrite_fs_mkdir (NodePath.dirname target) w) as Hlog.
  destruct (mkdirp (NodePath.dirname target) w) as [[r|err|err] w1]; [|done..].
  cbn in Hmem, Hlog. intros Hw%settle_resolved. revert Hw.
  unfold writeFile, seq_, assert_ok.
  destruct (decide (target = EmptyString)); [done|].
  destruct (decide (text = EmptyString)); [done|]. cbn.
  unfold fs_writeFile. destruct Hmem as (Hh & Hc & Hk).
  destruct (disk w1 !! target) as [[]|]; intros [= <-]; cbn;
    rewrite lookup_insert_eq, Hk, Hlog; by unfold sameMemory.
Qed.

(* ===================================================================== *)
(** ** The cache operations, case by case *)
(* ===================================================================== *)

(** Reading and writing the properties of a bucket object. *)
Section Objects.

Lemma lookup_entry (c : CacheFile) key e :
  c !! key = Some e <-> getProperty c key = Some (VEntry e).
Proof.
  unfold lookup, CacheFile_lookup.
  destruct (getProperty c key) as [[]|]; split; congruence.
Qed.

Lemma getProperty_own (c : CacheFile) key e :
  own c !! key = Some e -> getProperty c key = Some (VEntry e).
Proof. intros H. unfold getProperty. by rewrite H. Qed.

(** What was assigned is what is read, under every key. *)
Lemma getProperty_assign_eq key e (c : CacheFile) :
  getProperty (<[key := e]> c) key = Some (VEntry e).
Proof.
  unfold insert, CacheFile_insert, assign.
  destruct (decide _) as [[-> Hown]|_].
  - unfold getProperty. cbn [own proto]. by rewrite Hown.
  - apply getProperty_own. cbn [own]. apply lookup_insert_eq.
Qed.

Lemma lookup_assign_eq key e (c : CacheFile) : <[key := e]> c !! key = Some e.
Proof. apply lookup_entry, getProperty_assign_eq. Qed.

(** An assignment under another key than [__proto__] makes or updates an
    own property and leaves the prototype alone. *)
Lemma assign_own key e (c : CacheFile) :
  key <> "__proto__" ->
  <[key := e]> c = mkCacheFile (<[key := e]> (own c)) (proto c).
Proof.
  intros Hkey. unfold insert at 1, CacheFile_insert, assign.
  destruct (decide _) as [[? _]|_]; done.
Qed.


(** An assignment changes no other entry that is read, whatever the key. *)
Lemma lookup_assign_ne key key' e (c : CacheFile) :
  key' <> key -> <[key := e]> c !! key' = c !! key'.
Proof.
  intros Hne. unfold lookup, CacheFile_lookup, insert, CacheFile_insert, assign.
  destruct (decide _) as [[-> Hown]|_].
  - unfold getProperty, inherited. cbn [own proto].
    destruct (own c !! key'); [done|].
    destruct (decide (key' = "__proto__")); [done|].
    by destruct (proto c); repeat case_decide.
  - unfold getProperty, inherited. cbn [own proto]. by rewrite lookup_insert_ne.
Qed.


(** The empty object has the members of [Object.prototype] and no other. *)
Lemma getProperty_empty key : key ∉ objectPrototype -> getProperty ∅ key = None.
Proof.
  intros Hkey. unfold getProperty, inherited. cbn.
  destruct (decide (key = "__proto__")) as [->|_]; [|by case_decide].
  exfalso. apply Hkey. by apply (bool_decide_unpack ("__proto__" ∈ objectPrototype)).
Qed.

Lemma lookup_empty_entry key : (∅ : CacheFile) !! key = None.
Proof.
  unfold lookup, CacheFile_lookup, getProperty, inherited. cbn.
  by repeat case_decide.
Qed.

End Objects.

Section CacheFacts.
Context `{cfg : Config}.

Lemma fresh_heap_None (w : World) : heap w !! fresh (dom (heap w)) = None.
Proof. apply not_elem_of_dom, is_fresh. Qed.

Lemma getCacheFile_hit p w l :
  localCache w !! getHashPath p = Some l -> getCacheFile p w = (Resolved l, w).
Proof.
  intros H. pose proof (getCacheFile_ok p w) as Hs.
  inversion Hs; congruence.
Qed.

Lemma getCacheFile_parsed p w t data c :
  localCache w !! getHashPath p = None ->
  disk w !! getHashPath p = Some (File t data) ->
  JSON.parse data = Some c ->
  getCacheFile p w =
    (Resolved (fresh (dom (heap w))),
     mkWorld (disk w) (clock w) (writeLog w)
             (<[fresh (dom (heap w)) := c]> (heap w))
             (<[getHashPath p := fresh (dom (heap w))]> (localCache w))).
Proof.
  intros Hc Hd Hp. pose proof (getCacheFile_ok p w) as Hs.
  assert (Hr : fs_readFile (getHashPath p) w = (Resolved data, w)).
  { unfold fs_readFile. by rewrite Hd. }
  inversion Hs; try congruence.
Qed.

Lemma getCacheFile_missing p w :
  localCache w !! getHashPath p = None ->
  disk w !! getHashPath p = None ->
  getCacheFile p w =
    (Resolved (fresh (dom (heap w))),
     mkWorld (disk w) (clock w) (writeLog w)
             (<[fresh (dom (heap w)) := ∅]> (heap w)) (localCache w)).
Proof.
  intros Hc Hd. pose proof (getCacheFile_ok p w) as Hs.
  assert (Hr : fs_readFile (getHashPath p) w
               = (Rejected (errno "ENOENT" (getHashPath p)), w)).
  { unfold fs_readFile. by rewrite Hd. }
  inversion Hs as [| | |err ? Hr' Hcode|err ? Hr' Hcode]; try congruence.
  rewrite Hr in Hr'. injection Hr' as <-. by destruct Hcode.
Qed.

(** A load writes nothing, and only adds to the heap and to the overlay. *)
Lemma getCacheFile_frame p w :
  sameDisk w (snd (getCacheFile p w))
  /\ heap w ⊆ heap (snd (getCacheFile p w))
  /\ localCache w ⊆ localCache (snd (getCacheFile p w)).
Proof.
  destruct (getCacheFile_ok p w); cbn; split_and!; try done;
    try (apply insert_subseteq; first [apply fresh_heap_None | done]).
Qed.

(** After a load that resolved, the bucket is either in the overlay, or it
    is the empty object made up for a missing document. *)
Lemma getCacheFile_resolved p w l w1 :
  getCacheFile p w = (Resolved l, w1) ->
  (localCache w1 !! getHashPath p = Some l)
  \/ (localCache w1 !! getHashPath p = None
      /\ bucketAt w1 l = ∅
      /\ (exists err, fs_readFile (getHashPath p) w1 = (Rejected err, w1)
                      /\ errCode err = Some "ENOENT")).
Proof.
  intros H. pose proof (getCacheFile_ok p w) as Hs. rewrite H in Hs.
  inversion Hs as [l' Hc|data c Hc Hr Hp|data Hc Hr Hp|err Hc Hr Hcode|err Hc Hr Hcode];
    subst.
  - by left.
  - left. cbn. by rewrite lookup_insert_eq.
  - right. cbn. split_and!; [done| |].
    + unfold bucketAt. cbn. by rewrite lookup_insert_eq.
    + exists err. split; [|done]. revert Hr. unfold fs_readFile. cbn.
      destruct (disk w !! getHashPath p) as [[]|]; intros [= <-]; done.
Qed.

Lemma getCacheEntry_unfold p w :
  getCacheEntry p w =
    match getCacheFile p w with
    | (Resolved l, w1) =>
        (Resolved (orElse (getProperty (bucketAt w1 l) p) (mkCacheEntry 0 0)), w1)
    | (Rejected err, w1) => (Rejected err, w1)
    | (Thrown err, w1) => (Thrown err, w1)
    end.
Proof.
  unfold getCacheEntry, then_. by destruct (getCacheFile p w) as [[] w1].
Qed.

Lemma setCacheEntry_unfold d p data w :
  setCacheEntry d p data w =
    match getCacheFile p w with
    | (Resolved l, w1) =>
        let e := mkCacheEntry d (getHash data) in
        if fileInfoComparer (getProperty (bucketAt w1 l) p) e then (Resolved e, w1)
        else
          let w2 := mkWorld (disk w1) (clock w1) (writeLog w1)
                            (<[l := <[p := e]> (bucketAt w1 l)]> (heap w1))
                            (localCache w1) in
          match writeFilep (getHashPath p)
                  (JSON.stringify (<[p := e]> (bucketAt w1 l))) w2 with
          | (Resolved _, w3) => (Resolved e, w3)
          | (Rejected err, w3) | (Thrown err, w3) => (Rejected err, w3)
          end
    | (Rejected err, w1) => (Rejected err, w1)
    | (Thrown err, w1) => (Thrown err, w1)
    end.
Proof.
  unfold setCacheEntry, then_. destruct (getCacheFile p w) as [[l|err|err] w1]; try done.
  unfold seq_, deref, setProperty, setCacheFile, JSON_stringify, seq_, deref, resolve, bucketAt.
  cbn. destruct (fileInfoComparer _ _); [done|]. cbn.
  rewrite lookup_insert_eq. cbn.
  by destruct (writeFilep _ _ _) as [[] w3].
Qed.

Lemma stat_file p w t data :
  p <> EmptyString -> disk w !! p = Some (File t data) ->
  stat p w = (Resolved (mkStats t false), w).
Proof.
  intros Hp Hd. unfold stat, seq_. rewrite assert_ok_nonempty by done.
  unfold fs_stat. by rewrite Hd.
Qed.

Lemma readFile_file p w t data :
  p <> EmptyString -> disk w !! p = Some (File t data) ->
  readFile p w = (Resolved data, w).
Proof.
  intros Hp Hd. rewrite readFile_nonempty by done.
  unfold fs_readFile. by rewrite Hd.
Qed.

Lemma getCached_unfold p w t data :
  p <> EmptyString ->
  disk w !! p = Some (File t data) ->
  getCached p w =
    match getCacheEntry (getHashPath p) w with
    | (Resolved e, w1) =>
        (Resolved (mkFileInfo p data t (changedVerdict (getHash data) t e)), w1)
    | (Rejected err, w1) | (Thrown err, w1) => (Rejected err, w1)
    end.
Proof.
  intros Hp Hd. unfold getCached, then_ at 1, Promise_all2.
  rewrite (stat_file p w t data), (readFile_file p w t data) by done. cbn.
  unfold then_. by destruct (getCacheEntry (getHashPath p) w) as [[] w1].
Qed.

Lemma updateCache_unfold p w t data :
  p <> EmptyString ->
  disk w !! p = Some (File t data) ->
  updateCache p w = settle (setCacheEntry t p data w).
Proof.
  intros Hp Hd. unfold updateCache, then_ at 1, Promise_all2.
  by rewrite (stat_file p w t data), (readFile_file p w t data) by done.
Qed.

Lemma fileInfoComparer_true a b :
  fileInfoComparer a b = true <-> a = Some (VEntry b).
Proof.
  destruct a as [[[d h]| | |]|], b as [d' h']; cbn; try done.
  rewrite andb_true_iff, !Z.eqb_eq. split; [intros [-> ->]; done|intros [= -> ->]; done].
Qed.

(** The empty object holds no entry to compare with. *)
Lemma fileInfoComparer_empty p e : fileInfoComparer (getProperty ∅ p) e = false.
Proof.
  destruct (fileInfoComparer _ _) eqn:H; [|done].
  apply fileInfoComparer_true, lookup_entry in H. by rewrite lookup_empty_entry in H.
Qed.

End CacheFacts.

(* ===================================================================== *)
(** ** Commit and read back *)
(* ===================================================================== *)

Section RoundTrip.
Context `{cfg : Config}.

(** What a commit that resolved left behind: the committed entry is what
    a load of the bucket finds at the path. Under [__proto__] this holds
    for a bucket of the overlay only: a bucket that is loaded again from
    its document has lost what was assigned to its prototype. *)
Lemma setCacheEntry_resolved d p data w e w1 :
  p <> "__proto__" ->
  setCacheEntry d p data w = (Resolved e, w1) ->
  e = mkCacheEntry d (getHash data)
  /\ exists l w2, getCacheFile p w1 = (Resolved l, w2)
                  /\ bucketAt w2 l !! p = Some e
                  /\ sameDisk w1 w2.
Proof.
  intros Hp. rewrite setCacheEntry_unfold.
  destruct (getCacheFile p w) as [[l|err|err] w0] eqn:Hload; [|done..].
  cbv zeta. set (e0 := mkCacheEntry d (getHash data)).
  destruct (fileInfoComparer (getProperty (bucketAt w0 l) p) e0) eqn:Hcmp.
  - (* the stored entry is already the fresh one *)
    intros [= <- <-]. split; [done|].
    apply fileInfoComparer_true, lookup_entry in Hcmp.
    destruct (getCacheFile_resolved _ _ _ _ Hload) as [Hin|(_ & Hempty & _)].
    + exists l, w0. by rewrite (getCacheFile_hit _ _ _ Hin).
    + by rewrite Hempty, lookup_empty_entry in Hcmp.
  - (* the bucket was updated in place and written out *)
    set (w2 := mkWorld _ _ _ _ _).
    destruct (writeFilep _ _ w2) as [[[]|err|err] w3] eqn:Hwrite; [|done..].
    intros [= <- <-]. split; [done|].
    destruct (writeFilep_resolved _ _ _ _ Hwrite) as (Hdisk & _ & Hheap & Hcache & _).
    destruct (getCacheFile_resolved _ _ _ _ Hload) as [Hin|(Hout & Hempty & _)].
    + exists l, w3. rewrite (getCacheFile_hit p w3 l) by (by rewrite Hcache).
      split_and!; [done| |done].
      unfold bucketAt at 1. rewrite Hheap. cbn [heap w2]. rewrite lookup_insert_eq.
      apply lookup_assign_eq.
    + rewrite Hempty in Hdisk.
      eexists _, _. split; [|split].
      * apply (getCacheFile_parsed p w3 _ _ (mkCacheFile (own (<[p := e0]> ∅)) None)
                 ltac:(by rewrite Hcache) Hdisk).
        apply JSONFacts.parse_stringify.
      * unfold bucketAt. cbn [heap]. rewrite lookup_insert_eq. cbn [default from_option id].
        apply lookup_entry, getProperty_own. cbn [own].
        rewrite assign_own by done. apply lookup_insert_eq.
      * done.
Qed.

(** C3. Round trip, for every path but [__proto__]: a commit
    ([setCacheEntry]) that resolves, followed at once by a read of the
    entry ([getCacheEntry]) for the same path, resolves with an entry
    whose [dateUpdated] and [hash] are those of the committed entry, which
    is the time handed in and the fingerprint of the content handed in. *)
Theorem commit_then_read_entry d p data w e w1 :
  p <> "__proto__" ->
  setCacheEntry d p data w = (Resolved e, w1) ->
  exists (e' : CacheEntry) w2,
    getCacheEntry p w1 = (Resolved (VEntry e'), w2)
    /\ dateUpdated e' = dateUpdated e /\ hash e' = hash e
    /\ dateUpdated e = d /\ hash e = getHash data.
Proof.
  intros Hp (-> & l & w2 & Hload & Hentry%lookup_entry & _)%setCacheEntry_resolved;
    [|done].
  exists (mkCacheEntry d (getHash data)), w2.
  rewrite getCacheEntry_unfold, Hload, Hentry. done.
Qed.

(** The same for the exported commit, [updateCache], on a file that is
    there: the entry read back carries the file's time and the
    fingerprint of its content. *)
Corollary updateCache_then_read_entry p w t data e w1 :
  p <> EmptyString -> p <> "__proto__" ->
  disk w !! p = Some (File t data) ->
  updateCache p w = (Resolved e, w1) ->
  e = mkCacheEntry t (getHash data)
  /\ exists w2, getCacheEntry p w1 = (Resolved (VEntry e), w2).
Proof.
  intros Hp Hproto Hd. rewrite (updateCache_unfold p w t data) by done.
  intros (-> & l & w2 & Hload & Hentry%lookup_entry & _)%settle_resolved%setCacheEntry_resolved;
    [|done].
  split; [done|]. exists w2. by rewrite getCacheEntry_unfold, Hload, Hentry.
Qed.

End RoundTrip.

Section Idempotence.
Context `{cfg : Config}.

(** When the bucket already holds the fresh entry at the path, the commit
    is the load of the bucket and nothing else. *)
Lemma setCacheEntry_skip d p data w l w1 :
  getCacheFile p w = (Resolved l, w1) ->
  bucketAt w1 l !! p = Some (mkCacheEntry d (getHash data)) ->
  setCacheEntry d p data w = (Resolved (mkCacheEntry d (getHash data)), w1).
Proof.
  intros Hload Hentry%lookup_entry. rewrite setCacheEntry_unfold, Hload. cbv zeta.
  by rewrite (proj2 (fileInfoComparer_true _ _) Hentry).
Qed.

(** C5. If the entry stored for the path already equals, field by field,
    the entry computed from the time and content handed in, the commit
    resolves with that entry in the world the bucket load leaves: nothing
    is written, the disk is as before, and every bucket object that
    existed is unchanged. Hence, for every path but [__proto__], a commit
    that resolved, repeated at once with the same time and content,
    resolves with the same entry and writes no document. *)
Theorem commit_unchanged_is_noop :
  (forall d p data w l w1 stored,
      getCacheFile p w = (Resolved l, w1) ->
      bucketAt w1 l !! p = Some stored ->
      dateUpdated stored = d -> hash stored = getHash data ->
      setCacheEntry d p data w = (Resolved stored, w1)
      /\ writeLog w1 = writeLog w /\ disk w1 = disk w /\ heap w ⊆ heap w1)
  /\ (forall d p data w e w1,
      p <> "__proto__" ->
      setCacheEntry d p data w = (Resolved e, w1) ->
      exists w2,
        setCacheEntry d p data w1 = (Resolved e, w2)
        /\ writeLog w2 = writeLog w1 /\ disk w2 = disk w1 /\ heap w1 ⊆ heap w2).
Proof.
  assert (Hskip : forall d p data w l w1 stored,
      getCacheFile p w = (Resolved l, w1) ->
      bucketAt w1 l !! p = Some stored ->
      dateUpdated stored = d -> hash stored = getHash data ->
      setCacheEntry d p data w = (Resolved stored, w1)
      /\ writeLog w1 = writeLog w /\ disk w1 = disk w /\ heap w ⊆ heap w1).
  { intros d p data w l w1 [d' h'] Hload Hentry Hd Hh. cbn in Hd, Hh. subst d' h'.
    rewrite (setCacheEntry_skip _ _ _ _ _ _ Hload Hentry).
    destruct (getCacheFile_frame p w) as ((Hdisk & Hlog & _) & Hheap & _).
    rewrite Hload in Hdisk, Hlog, Hheap. done. }
  split; [exact Hskip|].
  intros d p data w e w1 Hp (-> & l & w2 & Hload & Hentry & _)%setCacheEntry_resolved;
    [|done].
  exists w2. by apply (Hskip d p data w1 l w2).
Qed.

End Idempotence.

(* ===================================================================== *)
(** ** Loading a bucket that is not there, or cannot be read *)
(* ===================================================================== *)

Section LoadErrors.
Context `{cfg : Config}.

(** C6. Loading a bucket that is not in the overlay: when reading its
    document fails with [ENOENT], the load resolves with a fresh empty
    bucket and leaves disk and overlay as they were; when the read fails
    with any other code, or the document read is no JSON text, the load
    rejects with an error carrying the message of the failure. *)
Theorem load_missing_or_fatal p w :
  localCache w !! getHashPath p = None ->
  (forall err, readFile (getHashPath p) w = (Rejected err, w) ->
     errCode err = Some "ENOENT" ->
     exists l w', getCacheFile p w = (Resolved l, w')
       /\ bucketAt w' l = ∅
       /\ sameDisk w w' /\ localCache w' = localCache w)
  /\ (forall err, readFile (getHashPath p) w = (Rejected err, w) ->
     errCode err <> Some "ENOENT" ->
     getCacheFile p w = (Rejected (Error (errMessage err)), w))
  /\ (forall data, readFile (getHashPath p) w = (Resolved data, w) ->
     JSON.parse_text data = None ->
     exists message, getCacheFile p w = (Rejected (Error message), w)).
Proof.
  intros Hmiss. pose proof (getCacheFile_ok p w) as Hs.
  rewrite !readFile_nonempty by apply getHashPath_nonempty.
  split_and!.
  - intros err Hr Hcode.
    inversion Hs as [| | |err' ? Hr' Hcode'|err' ? Hr' Hcode']; try congruence.
    eexists _, _. split; [done|]. unfold bucketAt. cbn.
    by rewrite lookup_insert_eq.
  - intros err Hr Hcode.
    inversion Hs as [| | |err' ? Hr' Hcode'|err' ? Hr' Hcode']; try congruence.
  - intros data Hr Hp%JSONFacts.parse_text_None.
    inversion Hs; try congruence. by eexists.
Qed.

(** C7. Reading the entry of a path at which the bucket object has no
    property, neither of its own nor inherited, resolves with the zero
    entry, in the world the bucket load leaves; in particular it does so
    for every path that is no property name of [Object.prototype] when
    the bucket is not loaded and its document does not exist. *)
Theorem read_absent_entry_is_zero p w :
  (forall l w1, getCacheFile p w = (Resolved l, w1) ->
     getProperty (bucketAt w1 l) p = None ->
     getCacheEntry p w = (Resolved (VEntry (mkCacheEntry 0 0)), w1))
  /\ (forall err, p ∉ objectPrototype ->
      localCache w !! getHashPath p = None ->
      readFile (getHashPath p) w = (Rejected err, w) ->
      errCode err = Some "ENOENT" ->
      exists w1, getCacheEntry p w = (Resolved (VEntry (mkCacheEntry 0 0)), w1)).
Proof.
  split.
  - intros l w1 Hload Habsent. by rewrite getCacheEntry_unfold, Hload, Habsent.
  - intros err Hp Hmiss Hr Hcode.
    rewrite readFile_nonempty in Hr by apply getHashPath_nonempty.
    pose proof (getCacheFile_ok p w) as Hs. rewrite getCacheEntry_unfold.
    inversion Hs as [| | |err' ? Hr' Hcode'|err' ? Hr' Hcode']; try congruence.
    eexists. unfold bucketAt. cbn [heap]. rewrite lookup_insert_eq.
    cbn [default from_option id]. by rewrite getProperty_empty.
Qed.

End LoadErrors.

(* ===================================================================== *)
(** ** Queries and the overlay *)
(* ===================================================================== *)

Global Instance keepsLive_refl : Reflexive keepsLive.
Proof. intros w Hlive. exact Hlive. Qed.
Global Instance keepsLive_trans : Transitive keepsLive.
Proof. intros w1 w2 w3 H12 H23 H1. apply H23, H12, H1. Qed.

Global Instance onlyLoads_refl : Reflexive onlyLoads.
Proof. by intros w. Qed.
Global Instance onlyLoads_trans : Transitive onlyLoads.
Proof.
  intros w1 w2 w3 (?&?&?) (?&?&?). split_and!; by etransitivity.
Qed.

Lemma changedVerdict_spec h t (e : CacheEntry) :
  changedVerdict h t e = true <->
  h <> hash e \/ t - dateUpdated e > gracePeriodMilliseconds.
Proof.
  unfold changedVerdict, isNewer.
  rewrite orb_true_iff, negb_true_iff, Z.eqb_neq, Z.ltb_lt. lia.
Qed.

Section Queries.
Context `{cfg : Config}.

Lemma onlyLoads_getCacheFile p : preserves onlyLoads (getCacheFile p).
Proof. intros w. apply getCacheFile_frame. Qed.

Lemma onlyLoads_getCacheEntry p : preserves onlyLoads (getCacheEntry p).
Proof.
  unfold getCacheEntry. frame; [apply onlyLoads_getCacheFile|by intros w].
Qed.

Lemma onlyLoads_getCached p : preserves onlyLoads (getCached p).
Proof.
  unfold getCached. frame;
    first [apply preserves_stat | apply preserves_readFile
          | apply onlyLoads_getCacheEntry].
Qed.

(** C8. A change-detection query issues no write, leaves the disk as it
    was, and leaves every bucket object and every overlay entry that
    existed as it was (it may only load buckets). When the tracked file
    is there and the entry lookup resolves, the query resolves with a
    [FileInfo] carrying the path, the content read, the time observed and
    the verdict computed from them. *)
Theorem getCached_reads_only p w :
  onlyLoads w (snd (getCached p w))
  /\ (forall t data e w1,
        p <> EmptyString ->
        disk w !! p = Some (File t data) ->
        getCacheEntry (getHashPath p) w = (Resolved e, w1) ->
        getCached p w =
          (Resolved (mkFileInfo p data t (changedVerdict (getHash data) t e)), w1)).
Proof.
  split; [apply onlyLoads_getCached|].
  intros t data e w1 Hp Hd He. by rewrite (getCached_unfold p w t data), He.
Qed.

Lemma sameMemory_writeFilep target text : preserves sameMemory (writeFilep target text).
Proof.
  unfold writeFilep, writeFile. frame;
    first [apply (preserves_mkdirp sameMemory_fs_mkdir) | apply sameMemory_fs_writeFile].
Qed.

(** A commit changes the overlay exactly as the load of its bucket does. *)
Lemma setCacheEntry_overlay d p data w :
  localCache (snd (setCacheEntry d p data w)) = localCache (snd (getCacheFile p w)).
Proof.
  rewrite setCacheEntry_unfold.
  destruct (getCacheFile p w) as [[l|err|err] w1]; [|done..]. cbv zeta.
  destruct (fileInfoComparer _ _); [done|].
  match goal with |- context [writeFilep ?t ?x ?w2] =>
    destruct (sameMemory_writeFilep t x w2) as (_ & Hc & _);
    destruct (writeFilep t x w2) as [[] w3] end; exact Hc.
Qed.

(** C10. The overlay gains a bucket only in a load that read and parsed
    the bucket's document: after [getCacheFile], an overlay entry either
    was there before, or is the entry of the bucket just loaded, whose
    document was read and parsed into the object the entry points to.
    A load that finds no document resolves with an empty bucket and
    leaves the overlay alone; a commit changes the overlay only through
    the load it starts with; so after a commit that created the bucket
    (no document, not in the overlay) the bucket is still not in the
    overlay although its document now holds the committed entry. *)
Theorem overlay_filled_by_parse_only :
  (forall p w k l,
      localCache (snd (getCacheFile p w)) !! k = Some l ->
      localCache w !! k = Some l
      \/ (k = getHashPath p /\ localCache w !! k = None
          /\ fst (getCacheFile p w) = Resolved l
          /\ exists data c,
               readFile k w = (Resolved data, w) /\ JSON.parse data = Some c
               /\ heap w !! l = None
               /\ heap (snd (getCacheFile p w)) !! l = Some c))
  /\ (forall p w err,
      localCache w !! getHashPath p = None ->
      readFile (getHashPath p) w = (Rejected err, w) ->
      errCode err = Some "ENOENT" ->
      exists l w', getCacheFile p w = (Resolved l, w')
                   /\ bucketAt w' l = ∅ /\ localCache w' = localCache w)
  /\ (forall d p data w,
      localCache (snd (setCacheEntry d p data w))
      = localCache (snd (getCacheFile p w)))
  /\ (forall d p data w err e w',
      localCache w !! getHashPath p = None ->
      readFile (getHashPath p) w = (Rejected err, w) ->
      errCode err = Some "ENOENT" ->
      setCacheEntry d p data w = (Resolved e, w') ->
      localCache w' = localCache w
      /\ localCache w' !! getHashPath p = None
      /\ disk w' !! getHashPath p
         = Some (File (clock w) (JSON.stringify (<[p := e]> ∅)))).
Proof.
  assert (Hmissing : forall p w err,
      localCache w !! getHashPath p = None ->
      readFile (getHashPath p) w = (Rejected err, w) ->
      errCode err = Some "ENOENT" ->
      getCacheFile p w =
        (Resolved (fresh (dom (heap w))),
         mkWorld (disk w) (clock w) (writeLog w)
                 (<[fresh (dom (heap w)) := ∅]> (heap w)) (localCache w))).
  { intros p w err Hmiss Hr Hcode.
    rewrite readFile_nonempty in Hr by apply getHashPath_nonempty.
    pose proof (getCacheFile_ok p w) as Hs.
    inversion Hs; congruence. }
  split_and!.
  - intros p w k l. pose proof (getCacheFile_ok p w) as Hs.
    inversion Hs as [l' Hc|data c Hc Hr Hp|data Hc Hr Hp|err Hc Hr Hcode|err Hc Hr Hcode];
      cbn; try (by left).
    rewrite lookup_insert. case_decide as Hk; [|by left].
    intros [= <-]. subst k. right. split_and!; [done..|].
    exists data, c. rewrite readFile_nonempty by apply getHashPath_nonempty.
    split_and!; [done|done|apply fresh_heap_None|by rewrite lookup_insert_eq].
  - intros p w err Hmiss Hr Hcode. rewrite (Hmissing p w err) by done.
    eexists _, _. split; [done|]. unfold bucketAt. cbn. by rewrite lookup_insert_eq.
  - apply setCacheEntry_overlay.
  - intros d p data w err e w' Hmiss Hr Hcode Hcommit.
    pose proof (setCacheEntry_overlay d p data w) as Hoverlay.
    revert Hcommit Hoverlay. rewrite setCacheEntry_unfold, (Hmissing p w err) by done.
    cbv zeta. unfold bucketAt. cbn [heap]. rewrite lookup_insert_eq.
    cbn [default from_option id]. rewrite fileInfoComparer_empty.
    match goal with |- context [writeFilep ?t ?x ?w2] =>
      destruct (writeFilep t x w2) as [[[]|?|?] w3] eqn:Hwrite end; [|done..].
    intros [= <- <-] Hoverlay. cbn in Hoverlay.
    destruct (writeFilep_resolved _ _ _ _ Hwrite) as (Hdisk & _).
    split_and!; [done|by rewrite Hoverlay|exact Hdisk].
Qed.

(** *** The overlay never dangles *)

Lemma keepsLive_sameMemory {A} (m : Promise A) :
  preserves sameMemory m -> preserves keepsLive m.
Proof.
  intros Hm w Hlive k l. destruct (Hm w) as (-> & -> & _). apply Hlive.
Qed.

Lemma keepsLive_getCacheFile p : preserves keepsLive (getCacheFile p).
Proof.
  intros w Hlive k l.
  destruct (getCacheFile_ok p w); cbn; try apply Hlive.
  - rewrite lookup_insert. case_decide; [intros [= <-]; by rewrite lookup_insert_eq|].
    intros [c' Hc']%Hlive. rewrite lookup_insert_ne; [eauto|].
    intros <-. by rewrite fresh_heap_None in Hc'.
  - intros [c' Hc']%Hlive. rewrite lookup_insert_ne; [eauto|].
    intros <-. by rewrite fresh_heap_None in Hc'.
Qed.

Lemma keepsLive_setProperty l key entry : preserves keepsLive (setProperty l key entry).
Proof.
  intros w Hlive k l' [c Hc]%Hlive. cbn.
  rewrite lookup_insert. case_decide; eauto.
Qed.

Lemma keepsLive_setCacheEntry d p data : preserves keepsLive (setCacheEntry d p data).
Proof.
  unfold setCacheEntry, setCacheFile, JSON_stringify, deref. frame;
    first [ apply keepsLive_getCacheFile | apply keepsLive_setProperty
          | apply keepsLive_sameMemory, sameMemory_writeFilep | by intros w ].
Qed.

(** The module starts with an empty overlay, and the exported operations
    keep every overlay entry pointing to a live bucket object. *)
Theorem overlay_references_live :
  (forall d now, liveOverlay (initialWorld d now))
  /\ (forall p, preserves keepsLive (getCached p))
  /\ (forall p, preserves keepsLive (updateCache p)).
Proof.
  split_and!.
  - intros d now k l. cbn. by rewrite lookup_empty.
  - intros p. unfold getCached, getCacheEntry, deref. frame;
      first [ apply preserves_stat | apply preserves_readFile
            | apply keepsLive_getCacheFile | by intros w ].
  - intros p. unfold updateCache. frame;
      first [ apply preserves_stat | apply preserves_readFile
            | apply keepsLive_setCacheEntry ].
Qed.

End Queries.

(* ===================================================================== *)
(** ** The scenarios, run *)
(* ===================================================================== *)

Module ScenarioFacts.
Import Scenario.

(** C1 (the code at the failing input). The tracked file is committed
    with content [x] at time 1000 and queried at once, unchanged. The
    entry recorded for the path is (1000, fingerprint of [x]), against
    which the verdict is [false]; [getCached] nevertheless resolves with
    [changed = true], because it looks the entry up under the path of
    the bucket document, in the bucket of that document. *)
Theorem getCached_misses_committed_entry :
  @updateCache demo tracked start
    = (Resolved (mkCacheEntry 1000 (getHash "x")), committed)
  /\ fst (@getCacheEntry demo tracked committed)
     = Resolved (mkCacheEntry 1000 (getHash "x"))
  /\ changedVerdict (getHash "x") 1000 (mkCacheEntry 1000 (getHash "x")) = false
  /\ fst (@getCacheEntry demo (@getHashPath demo tracked) committed)
     = Resolved (mkCacheEntry 0 0)
  /\ fst (@getCached demo tracked committed)
     = Resolved (mkFileInfo tracked "x" 1000 true).
Proof. vm_compute. repeat split. Qed.

(** C2 (the code at the failing input). Scenario D: the tracked file is
    committed with [x] at time 1000 and seen again with [x] later. At
    whatever time it is seen, 1050000 as the scenario has it or a time
    within the grace period such as 100000, the query resolves with
    [changed = true], although within the grace period the verdict
    against the committed entry is [false]: the query does not read the
    committed entry. *)
Theorem scenario_D_reports_changed :
  @updateCache demo tracked start
    = (Resolved (mkCacheEntry 1000 (getHash "x")), committed)
  /\ (forall t, fst (@getCached demo tracked (touch tracked t "x" committed))
                = Resolved (mkFileInfo tracked "x" t true))
  /\ (forall t, t - 1000 <= gracePeriodMilliseconds ->
        changedVerdict (getHash "x") t (mkCacheEntry 1000 (getHash "x")) = false)
  /\ fst (@getCached demo tracked (touch tracked 1050000 "x" committed))
     = Resolved (mkFileInfo tracked "x" 1050000 true)
  /\ fst (@getCached demo tracked (touch tracked 100000 "x" committed))
     = Resolved (mkFileInfo tracked "x" 100000 true)
  /\ changedVerdict (getHash "x") 100000 (mkCacheEntry 1000 (getHash "x")) = false.
Proof.
  assert (Hverdict : forall t, t - 1000 <= gracePeriodMilliseconds ->
            changedVerdict (getHash "x") t (mkCacheEntry 1000 (getHash "x")) = false).
  { intros t Ht. apply not_true_is_false. intros [H|H]%changedVerdict_spec.
    - by apply H.
    - cbn [dateUpdated] in H. lia. }
  assert (Hquery : forall t,
            fst (@getCached demo tracked (touch tracked t "x" committed))
            = Resolved (mkFileInfo tracked "x" t true)).
  { intros t.
    rewrite (getCached_unfold (cfg := demo) tracked _ t "x");
      [|discriminate|apply lookup_insert_eq].
    rewrite getCacheEntry_unfold, getCacheFile_missing.
    - unfold bucketAt. cbn [heap]. rewrite lookup_insert_eq. reflexivity.
    - reflexivity.
    - unfold touch. cbn [disk].
      rewrite lookup_insert_ne by (intros H; vm_compute in H; discriminate H).
      vm_compute. reflexivity. }
  split_and!; [vm_compute; reflexivity|exact Hquery|exact Hverdict|apply Hquery..|].
  apply Hverdict. unfold gracePeriodMilliseconds. lia.
Qed.

(** C3 (counterexample). A file named [__proto__] is committed with [x]
    at time 1000. The assignment [cacheFile[filePath] = cacheEntry] then
    sets the prototype of the fresh bucket object and gives it no
    property of its own, so the document written is the empty object; the
    read of the entry that follows loads that document and resolves with
    [Object.prototype], which is no entry and has neither field. *)
Lemma commit_then_read_proto :
  @setCacheEntry demo 1000 "__proto__" "x" protoStart
    = (Resolved (mkCacheEntry 1000 (getHash "x")), protoCommitted)
  /\ @updateCache demo "__proto__" protoStart
     = (Resolved (mkCacheEntry 1000 (getHash "x")), protoCommitted)
  /\ writeLog protoCommitted = [(@getHashPath demo "__proto__", "{}")]
  /\ fst (@getCacheEntry demo "__proto__" protoCommitted) = Resolved VObjectPrototype
  /\ ~ (exists (e' : CacheEntry) w2,
          @getCacheEntry demo "__proto__" protoCommitted = (Resolved (VEntry e'), w2)).
Proof.
  split_and!; try (vm_compute; reflexivity).
  intros (e' & w2 & H). vm_compute in H. discriminate H.
Qed.

(** C5 (counterexample). The same commit made twice in succession, with
    the same time and content: the entry is the same both times, and the
    document is written a second time, because the bucket loaded from the
    document the first commit wrote does not hold the entry. *)
Lemma commit_proto_twice_writes_twice :
  @setCacheEntry demo 1000 "__proto__" "x" protoStart
    = (Resolved (mkCacheEntry 1000 (getHash "x")), protoCommitted)
  /\ fst (@setCacheEntry demo 1000 "__proto__" "x" protoCommitted)
     = Resolved (mkCacheEntry 1000 (getHash "x"))
  /\ writeLog protoCommitted = [(@getHashPath demo "__proto__", "{}")]
  /\ writeLog (snd (@setCacheEntry demo 1000 "__proto__" "x" protoCommitted))
     = [(@getHashPath demo "__proto__", "{}"); (@getHashPath demo "__proto__", "{}")].
Proof. vm_compute. repeat split. Qed.

(** C7 (counterexample). The path [constructor] has no entry in its
    bucket, which is the empty object made up for a missing document; the
    read of its entry resolves with the member [constructor] that every
    object inherits, not with the zero entry. *)
Lemma read_absent_entry_inherited :
  (exists l w1, @getCacheFile demo "constructor" start = (Resolved l, w1)
                /\ bucketAt w1 l = ∅ /\ bucketAt w1 l !! "constructor" = None)
  /\ fst (@getCacheEntry demo "constructor" start) = Resolved (VBuiltin "constructor")
  /\ fst (@getCacheEntry demo "constructor" start) <> Resolved (VEntry (mkCacheEntry 0 0)).
Proof.
  split_and!.
  - eexists _, _. vm_compute. repeat split.
  - vm_compute. reflexivity.
  - vm_compute. discriminate.
Qed.

(** The outer document of [crowded] is what a commit of the file
    [bucketDoc], holding [x] at time 2000000, writes. *)
Example crowded_document_arises :
  exists t text,
    disk crowded !! outerDoc = Some (File t text)
    /\ fst (@setCacheEntry demo 2000000 bucketDoc "x" start)
       = Resolved (mkCacheEntry 2000000 (getHash "x"))
    /\ writeLog (snd (@setCacheEntry demo 2000000 bucketDoc "x" start))
       = [(outerDoc, text)].
Proof. eexists _, _. vm_compute. repeat split. Qed.

(** C4 (the code at the failing input). Scenario C on a disk whose outer
    document records, for the path of the bucket document, the
    fingerprint of [x] at time 2000000: the tracked file is committed
    with [x] at 1000 and seen again with [x] at 1121000. The entry
    stored for the path is (1000, fingerprint of [x]) and the verdict
    against it is [true]; [getCached] resolves with [changed = false]. *)
Theorem scenario_C_reports_unchanged :
  @updateCache demo tracked crowded
    = (Resolved (mkCacheEntry 1000 (getHash "x")), crowdedCommitted)
  /\ fst (@getCacheEntry demo tracked (touch tracked 1121000 "x" crowdedCommitted))
     = Resolved (mkCacheEntry 1000 (getHash "x"))
  /\ changedVerdict (getHash "x") 1121000 (mkCacheEntry 1000 (getHash "x")) = true
  /\ fst (@getCached demo tracked (touch tracked 1121000 "x" crowdedCommitted))
     = Resolved (mkFileInfo tracked "x" 1121000 false).
Proof. vm_compute. repeat split. Qed.

End ScenarioFacts.


(* ===================================================================== *)
(** ** The theorems at work on the scenario worlds *)
(* ===================================================================== *)

Module Witnesses.
Import Scenario.

Lemma getHash_deterministic_witness : getHash "x" = getHash "x".
Proof. exact (proj2 (proj2 getHash_deterministic) "x" "x" eq_refl). Defined.

Lemma commit_then_read_entry_witness :
  exists (e' : CacheEntry) w2,
    @getCacheEntry demo tracked (snd (@setCacheEntry demo 1000 tracked "x" start))
      = (Resolved (VEntry e'), w2)
    /\ dateUpdated e' = 1000 /\ hash e' = 120
    /\ 1000 = 1000 /\ 120 = getHash "x".
Proof.
  exact (commit_then_read_entry (cfg := demo) 1000 tracked "x" start
           (mkCacheEntry 1000 120)
           (snd (@setCacheEntry demo 1000 tracked "x" start))
           ltac:(discriminate)
           ltac:(vm_compute; reflexivity)).
Defined.

Lemma commit_unchanged_is_noop_witness :
  (@setCacheEntry demo 1000 tracked "x" committed
     = (Resolved (mkCacheEntry 1000 120), snd (@getCacheFile demo tracked committed))
   /\ writeLog (snd (@getCacheFile demo tracked committed)) = writeLog committed
   /\ disk (snd (@getCacheFile demo tracked committed)) = disk committed
   /\ heap committed ⊆ heap (snd (@getCacheFile demo tracked committed)))
  /\ (exists w2,
        @setCacheEntry demo 1000 tracked "x" committed
          = (Resolved (mkCacheEntry 1000 120), w2)
        /\ writeLog w2 = writeLog committed /\ disk w2 = disk committed
        /\ heap committed ⊆ heap w2).
Proof.
  split.
  - apply (proj1 (@commit_unchanged_is_noop demo) 1000 tracked "x" committed
             2%positive (snd (@getCacheFile demo tracked committed))
             (mkCacheEntry 1000 120)).
    + vm_compute. reflexivity.
    + vm_compute. reflexivity.
    + reflexivity.
    + reflexivity.
  - apply (proj2 (@commit_unchanged_is_noop demo) 1000 tracked "x" start
             (mkCacheEntry 1000 120) committed).
    + discriminate.
    + vm_compute. reflexivity.
Defined.

Lemma load_missing_or_fatal_witness :
  (exists l w', @getCacheFile demo tracked start = (Resolved l, w')
     /\ bucketAt w' l = ∅ /\ sameDisk start w' /\ localCache w' = localCache start)
  /\ @getCacheFile demo tracked blocked
      = (Rejected (Error "EISDIR: /repo/.fs-hash/a.json"), blocked)
  /\ (exists message,
        @getCacheFile demo tracked garbled = (Rejected (Error message), garbled)).
Proof.
  split_and!.
  - apply (proj1 (@load_missing_or_fatal demo tracked start eq_refl)
             (errno "ENOENT" bucketDoc)); reflexivity.
  - apply (proj1 (proj2 (@load_missing_or_fatal demo tracked blocked eq_refl))
             (errno "EISDIR" bucketDoc)); [reflexivity|discriminate].
  - apply (proj2 (proj2 (@load_missing_or_fatal demo tracked garbled eq_refl))
             "{oops"); reflexivity.
Defined.

Lemma read_absent_entry_is_zero_witness :
  @getCacheEntry demo tracked start
    = (Resolved (VEntry (mkCacheEntry 0 0)), snd (@getCacheFile demo tracked start))
  /\ (exists w1, @getCacheEntry demo tracked start
                 = (Resolved (VEntry (mkCacheEntry 0 0)), w1)).
Proof.
  split.
  - apply (proj1 (@read_absent_entry_is_zero demo tracked start) 1%positive);
      vm_compute; reflexivity.
  - apply (proj2 (@read_absent_entry_is_zero demo tracked start)
             (errno "ENOENT" bucketDoc)); [|reflexivity..].
    apply (bool_decide_eq_false_1 (tracked ∈ objectPrototype)). vm_compute. reflexivity.
Defined.

Lemma getCached_reads_only_witness :
  @getCached demo tracked committed
  = (Resolved (mkFileInfo tracked "x" 1000
                 (changedVerdict (getHash "x") 1000 (mkCacheEntry 0 0))),
     snd (@getCacheEntry demo bucketDoc committed)).
Proof.
  apply (proj2 (@getCached_reads_only demo tracked committed)).
  - discriminate.
  - vm_compute. reflexivity.
  - vm_compute. reflexivity.
Defined.

Lemma overlay_filled_by_parse_only_witness :
  localCache (snd (@setCacheEntry demo 1000 tracked "x" start)) = localCache start
  /\ localCache (snd (@setCacheEntry demo 1000 tracked "x" start)) !! bucketDoc = None
  /\ disk (snd (@setCacheEntry demo 1000 tracked "x" start)) !! bucketDoc
     = Some (File 5000 (JSON.stringify (<[tracked := mkCacheEntry 1000 120]> ∅))).
Proof.
  apply (proj2 (proj2 (proj2 (@overlay_filled_by_parse_only demo)))
           1000 tracked "x" start (errno "ENOENT" bucketDoc)
           (mkCacheEntry 1000 120) (snd (@setCacheEntry demo 1000 tracked "x" start))).
  - reflexivity.
  - reflexivity.
  - reflexivity.
  - vm_compute. reflexivity.
Defined.

End Witnesses.

(* ===================================================================== *)
(** * Further facts about the code *)
(* ===================================================================== *)

(* ===================================================================== *)
(** ** The fingerprint as a polynomial hash *)
(* ===================================================================== *)

Section FingerprintShape.
Import Int32 Int32Facts.

Lemma hash_loop_app h l1 l2 :
  hash_loop h (l1 ++ l2) = hash_loop (hash_loop h l1) l2.
Proof. unfold hash_loop. apply fold_left_app. Qed.

Lemma codes_app (s t : string) :
  map charCodeAt (list_ascii_of_string (s +:+ t))
  = map charCodeAt (list_ascii_of_string s) ++ map charCodeAt (list_ascii_of_string t).
Proof.
  induction s as [|c s IH]; [reflexivity|].
  change (String c s +:+ t) with (String c (s +:+ t)). cbn. by rewrite IH.
Qed.

(** The early return for the empty text agrees with the loop. *)
Lemma getHash_loop s :
  getHash s = hash_loop 0 (map charCodeAt (list_ascii_of_string s)).
Proof. by destruct s. Qed.

(** X1. Appending one character to a text multiplies its fingerprint by
    31, adds the character code and wraps the sum to 32 bits. *)
Theorem getHash_snoc s c :
  getHash (s +:+ String c EmptyString)
  = toInt32 (31 * getHash s + charCodeAt c).
Proof.
  rewrite !getHash_loop, codes_app, hash_loop_app. cbn [map list_ascii_of_string].
  apply hash_step_31.
Qed.

Lemma hash_loop_Aa_BB h : hash_loop h [65; 97] = hash_loop h [66; 66].
Proof.
  unfold hash_loop. cbn [fold_left]. rewrite !hash_step_31.
  apply toInt32_congr.
  rewrite (Zplus_mod (31 * toInt32 (31 * h + 65))), (Zplus_mod (31 * toInt32 (31 * h + 66))).
  rewrite (Zmult_mod 31 (toInt32 _)), (Zmult_mod 31 (toInt32 (31 * h + 66))).
  rewrite !toInt32_mod.
  rewrite <- !Zmult_mod, <- !Zplus_mod. f_equal. lia.
Qed.

(** X2. The fingerprint is not injective: wherever a text contains [Aa],
    replacing it by [BB] leaves the fingerprint unchanged. *)
Theorem getHash_collision before after :
  before +:+ "Aa" +:+ after <> before +:+ "BB" +:+ after
  /\ getHash (before +:+ "Aa" +:+ after) = getHash (before +:+ "BB" +:+ after).
Proof.
  split.
  - intros H. apply String.app_inj in H. discriminate.
  - rewrite !getHash_loop, !codes_app, !hash_loop_app.
    f_equal. apply hash_loop_Aa_BB.
Qed.

End FingerprintShape.
(* ===================================================================== *)
(** ** [flatten] and [chainTasks] *)
(* ===================================================================== *)

Section Flatten.
Context {A : Type}.

Lemma flatten_acc (arr : list (Nested A)) (out : list A) :
  fold_left (fun out item => out ++ flattenItem item) arr out = out ++ flatten arr.
Proof.
  unfold flatten. revert out.
  induction arr as [|item arr IH]; intros out; cbn [fold_left].
  - by rewrite app_nil_r.
  - rewrite IH, (IH ([] ++ flattenItem item)). cbn. by rewrite app_assoc.
Qed.

Lemma flatten_cons (item : Nested A) arr :
  flatten (item :: arr) = flattenItem item ++ flatten arr.
Proof. unfold flatten at 1. cbn [fold_left]. apply flatten_acc. Qed.

(** X3. [flatten] keeps the order of the elements: an array without
    nested arrays is returned as it is, a nested array is replaced by its
    own flattening in place, and flattening distributes over
    concatenation. *)
Theorem flatten_in_order :
  (forall l : list A, flatten (map Item l) = l)
  /\ (forall (inner rest : list (Nested A)),
        flatten (Items inner :: rest) = flatten inner ++ flatten rest)
  /\ (forall arr1 arr2 : list (Nested A),
        flatten (arr1 ++ arr2) = flatten arr1 ++ flatten arr2).
Proof.
  split_and!.
  - induction l as [|a l IH]; [reflexivity|].
    cbn [map]. by rewrite flatten_cons, IH.
  - intros inner rest. by rewrite flatten_cons.
  - intros arr1 arr2. unfold flatten at 1. rewrite fold_left_app.
    apply flatten_acc.
Qed.

End Flatten.

Section Chain.
Context {A : Type}.

Lemma chainTasks_Runs (queue : list (Promise A)) w results w' :
  Runs queue w results w' -> chainTasks queue w = (Resolved results, w').
Proof.
  induction 1 as [w|next queue w a w1 results w2 Hnext _ IH]; [reflexivity|].
  cbn [chainTasks]. unfold then_ at 1. rewrite Hnext.
  unfold then_. by rewrite IH.
Qed.

(** X4. When the tasks of the array, taken in order, each resolve from
    the world the previous one left, [chainTasks] resolves with their
    results in that order, in the world the last one left; nested arrays
    of tasks are run in place. *)
Theorem chainTasks_runs_in_order (arr : list (Nested (Promise A))) w results w' :
  Runs (flatten arr) w results w' ->
  chainTasksOf arr w = (Resolved results, w')
  /\ length results = length (flatten arr).
Proof.
  intros Hruns. split; [by apply chainTasks_Runs|].
  induction Hruns; cbn; congruence.
Qed.

(** X5. The first task that fails ends the chain: when the tasks before
    it resolved and it rejects (or throws), [chainTasks] rejects with its
    error in the world it left, and no later task is run. *)
Theorem chainTasks_stops_at_first_failure
    (before after : list (Promise A)) (failing : Promise A) w results w1 err w2 :
  Runs before w results w1 ->
  failing w1 = (Rejected err, w2) \/ (before <> [] /\ failing w1 = (Thrown err, w2)) ->
  chainTasks (before ++ failing :: after) w = (Rejected err, w2).
Proof.
  intros Hruns. revert err w2.
  induction Hruns as [w|next queue w a w0 results w1 Hnext Hqueue IH];
    intros err w2 Hfail.
  - destruct Hfail as [Hfail|[[] _]]; [|done].
    cbn [app chainTasks]. unfold then_ at 1. by rewrite Hfail.
  - cbn [app chainTasks]. unfold then_ at 1. rewrite Hnext.
    destruct queue as [|next' queue].
    + inversion Hqueue; subst. cbn [app chainTasks]. unfold then_.
      destruct Hfail as [-> | [_ ->]]; reflexivity.
    + unfold then_ at 1. rewrite (IH err w2); [reflexivity|].
      destruct Hfail as [?|[_ ?]]; [by left|by right].
Qed.

End Chain.
(* ===================================================================== *)
(** ** [truncate], [withoutTrailingSlash], [executeCommands] *)
(* ===================================================================== *)

Section Strings.

Lemma length_substring_0 n s :
  String.length (String.substring 0 n s) = Nat.min n (String.length s).
Proof.
  revert s. induction n as [|n IH]; intros [|c s]; cbn; try reflexivity.
  by rewrite IH.
Qed.

Lemma string_length_app (s t : string) :
  String.length (s +:+ t) = (String.length s + String.length t)%nat.
Proof.
  induction s as [|c s IH]; [reflexivity|].
  change (String c s +:+ t) with (String c (s +:+ t)). cbn. by rewrite IH.
Qed.

Lemma substring_0_app s t :
  String.substring 0 (String.length s) (s +:+ t) = s.
Proof.
  induction s as [|c s IH]; [by destruct t|].
  change (String c s +:+ t) with (String c (s +:+ t)). cbn. by rewrite IH.
Qed.

(** X6. [truncate] never returns more than 63 characters: a text of at
    most 60 characters is returned as it is, a longer one is cut to its
    first 60 characters followed by three dots. *)
Theorem truncate_bounded text :
  (String.length (truncate text) <= 63)%nat
  /\ ((String.length text <= 60)%nat -> truncate text = text)
  /\ ((60 < String.length text)%nat ->
      truncate text = String.substring 0 60 text +:+ "..."
      /\ String.length (truncate text) = 63%nat).
Proof.
  unfold truncate. destruct (Nat.ltb_spec 60 (String.length text)) as [Hlong|Hshort].
  - assert (Hlen : String.length (String.substring 0 60 text +:+ "...") = 63%nat).
    { rewrite string_length_app, length_substring_0, Nat.min_l by lia. reflexivity. }
    split_and!; [lia|lia|done].
  - split_and!; [lia|done|lia].
Qed.

Lemma ends_with_slash_app s : NodePath.ends_with_slash (s +:+ "/") = true.
Proof.
  induction s as [|c s IH]; [reflexivity|].
  change (String c s +:+ "/") with (String c (s +:+ "/")).
  cbn [NodePath.ends_with_slash]. destruct (s +:+ "/") eqn:Hs; [|exact IH].
  by destruct s.
Qed.

(** X7. [withoutTrailingSlash] removes exactly one trailing slash: a text
    followed by a slash gives the text back, even when the text itself
    ends with a slash; a text that does not end with a slash is returned
    as it is. *)
Theorem withoutTrailingSlash_strips_one text :
  withoutTrailingSlash (text +:+ "/") = text
  /\ (NodePath.ends_with_slash text = false -> withoutTrailingSlash text = text).
Proof.
  split.
  - unfold withoutTrailingSlash. rewrite ends_with_slash_app, string_length_app.
    cbn [String.length]. replace (String.length text + 1 - 1)%nat
      with (String.length text) by lia.
    apply substring_0_app.
  - intros H. unfold withoutTrailingSlash. by rewrite H.
Qed.

End Strings.

Section Dispatch.

Lemma splitOn_free sep s : freeOf sep s = true -> splitOn sep s = [s].
Proof.
  induction s as [|c s IH]; [done|]. cbn [freeOf splitOn].
  intros [Hc Hs]%andb_true_iff. apply negb_true_iff in Hc.
  by rewrite Hc, IH.
Qed.

Lemma splitOn_app sep s t :
  freeOf sep s = true ->
  splitOn sep (s +:+ String sep t) = s :: splitOn sep t.
Proof.
  induction s as [|c s IH].
  - intros _. change (EmptyString +:+ String sep t) with (String sep t).
    cbn [splitOn]. by rewrite Ascii.eqb_refl.
  - cbn [freeOf]. intros [Hc Hs]%andb_true_iff. apply negb_true_iff in Hc.
    change (String c s +:+ String sep t) with (String c (s +:+ String sep t)).
    cbn [splitOn]. by rewrite Hc, IH.
Qed.

Lemma splitOn_nonempty sep s : splitOn sep s <> [].
Proof.
  destruct s as [|c s]; [done|]. cbn [splitOn].
  destruct (Ascii.eqb c sep); [done|]. by destruct (splitOn sep s).
Qed.

(** X8. With one command-line argument [name:args], where neither part
    has a colon, [executeCommands] calls the task stored under [name]
    with [args], whatever follows a second colon being dropped, and
    nothing else runs: it resolves with the whole argument when the task
    resolves and fails as the task fails. With the bare argument [name]
    the task is called with [undefined], not with the default empty
    text. *)
Theorem executeCommands_dispatch (allTasks : TaskMap) name args task w :
  freeOf ":" name = true -> freeOf ":" args = true ->
  lookupTask name allTasks = Some task ->
  (executeCommands allTasks [name +:+ ":" +:+ args] w
   = then_ (task (Some args)) (fun _ => resolve (name +:+ ":" +:+ args)) w)
  /\ (forall more,
        executeCommands allTasks [name +:+ ":" +:+ args +:+ ":" +:+ more] w
        = then_ (task (Some args))
            (fun _ => resolve (name +:+ ":" +:+ args +:+ ":" +:+ more)) w)
  /\ (executeCommands allTasks [name] w
      = then_ (task None) (fun _ => resolve name) w).
Proof.
  intros Hname Hargs Htask. unfold executeCommands, selectTask, seq_, resolve.
  split_and!.
  - change (":" +:+ args) with (String ":" args).
    rewrite splitOn_app, (splitOn_free _ args) by done. cbn. by rewrite Htask.
  - intros more. change (":" +:+ args +:+ ":" +:+ more) with (String ":" (args +:+ String ":" more)).
    rewrite splitOn_app, splitOn_app by done. cbn.
    destruct (splitOn ":" more) eqn:Hm; [by apply splitOn_nonempty in Hm|].
    cbn. by rewrite Htask.
  - rewrite splitOn_free by done. cbn. by rewrite Htask.
Qed.

(** X9. [executeCommands] throws, before any task is called and leaving
    the world as it is, when there is more than one argument, when there
    is none and the map does not hold exactly one task, and when no task
    is stored under the name given; in the last case the message reads
    [No task named "undefined"], whatever the name was, unless the name
    is one that every object inherits. With no argument and exactly one
    task, that task is called with the empty text. *)
Theorem executeCommands_refusals (allTasks : TaskMap) w :
  (forall a1 a2 argv, exists message,
      executeCommands allTasks (a1 :: a2 :: argv) w = (Thrown (Error message), w))
  /\ (length allTasks <> 1%nat -> exists message,
      executeCommands allTasks [] w = (Thrown (Error message), w))
  /\ (forall taskParam,
      lookupTask (default EmptyString (splitOn ":" taskParam !! 0%nat)) allTasks = None ->
      (exists message,
          executeCommands allTasks [taskParam] w = (Thrown (Error message), w))
      /\ (default EmptyString (splitOn ":" taskParam !! 0%nat) ∉ objectPrototype ->
          executeCommands allTasks [taskParam] w
          = (Thrown (Error ("No task named " +:+ quoted "undefined")), w)))
  /\ (forall name task, allTasks = [(name, task)] ->
      executeCommands allTasks [] w
      = then_ (task (Some EmptyString)) (fun _ => resolve name) w).
Proof.
  unfold executeCommands, selectTask, seq_, resolve, throw. split_and!.
  - intros a1 a2 argv. by eexists.
  - intros Hlen. destruct allTasks as [|[n1 t1] [|[n2 t2] rest]]; cbn in *;
      [by eexists|done|by eexists].
  - intros taskParam Hnone. cbn. rewrite Hnone.
    split; [|intros Hown]; case_decide; try done; by eexists.
  - intros name task ->. cbn. by rewrite String.eqb_refl.
Qed.

End Dispatch.
(* ===================================================================== *)
(** ** [mkdirp] and [writeFilep] on the disk *)
(* ===================================================================== *)

Global Instance onlyNewDirectories_refl : Reflexive onlyNewDirectories.
Proof. intros w. split_and!; [done|done|]. intros k node ?. by left. Qed.

Global Instance onlyNewDirectories_trans : Transitive onlyNewDirectories.
Proof.
  intros w1 w2 w3 (Hc12 & Hd12 & Hn12) (Hc23 & Hd23 & Hn23). split_and!.
  - congruence.
  - by etransitivity.
  - intros k node [H2| ->]%Hn23; [by apply Hn12|]. right. by rewrite Hc12.
Qed.

Lemma onlyNewDirectories_fs_mkdir target : preserves onlyNewDirectories (fs_mkdir target).
Proof.
  intros w. unfold fs_mkdir. destruct (disk w !! target) eqn:Ht; [reflexivity|].
  cbn [snd]. split_and!; cbn [disk clock]; [done|by apply insert_subseteq|].
  intros k node. rewrite lookup_insert. case_decide; [intros [= <-]; by right|by left].
Qed.

Section Mkdirp.

Lemma chainTasks_resolved {A} (queue : list (Promise A)) w results w' :
  chainTasks queue w = (Resolved results, w') -> Runs queue w results w'.
Proof.
  revert w results. induction queue as [|next queue IH]; intros w results.
  - intros [= <- <-]. constructor.
  - cbn [chainTasks]. unfold then_ at 1.
    destruct (next w) as [[a|err|err] w1] eqn:Hnext; [|done..].
    intros H%settle_resolved. revert H. unfold then_.
    destruct (chainTasks queue w1) as [[rs|err|err] w2] eqn:Hq; [|done..].
    intros [= <- <-]. econstructor; [done|by apply IH].
Qed.

(** A link of the chain that resolved leaves a directory at its path. *)
Lemma stat_nonempty filename w :
  filename <> EmptyString -> stat filename w = fs_stat filename w.
Proof. intros H. unfold stat, seq_. by rewrite assert_ok_nonempty. Qed.

Lemma mkdir_nonempty target w :
  target <> EmptyString -> mkdir target w = fs_mkdir target w.
Proof. intros H. unfold mkdir, seq_. by rewrite assert_ok_nonempty. Qed.

(** What a link of the chain does, by what is at its path. *)
Lemma mkdirpTask_cases partialPath w :
  partialPath <> EmptyString ->
  mkdirpTask partialPath w =
    match disk w !! partialPath with
    | Some (Directory _) => (Resolved tt, w)
    | Some (File _ _) =>
        (Rejected (ErrnoException "EISDIR"
           ("EISDIR: " +:+ partialPath +:+ " exists but isn't a directory")), w)
    | Some (Faulty code) =>
        if decide (code = "ENOENT")
        then (Rejected (errno "EEXIST" partialPath), w)
        else (Rejected (errno code partialPath), w)
    | None =>
        (Resolved tt,
         mkWorld (<[partialPath := Directory (clock w)]> (disk w)) (clock w)
                 (writeLog w) (heap w) (localCache w))
    end.
Proof.
  intros Hne. unfold mkdirpTask, catch_, then_ at 1, exists_, then_ at 1, fs_access.
  destruct (disk w !! partialPath) as [[t d|t|code]|] eqn:Hd.
  - cbn [settle resolve]. unfold then_. rewrite stat_nonempty by done.
    unfold fs_stat. rewrite Hd. cbn. by case_decide.
  - cbn [settle resolve]. unfold then_. rewrite stat_nonempty by done.
    unfold fs_stat. by rewrite Hd.
  - cbn [errCode errno]. destruct (decide (code = "ENOENT")) as [->|Hc].
    + case_decide; [|done]. rewrite mkdir_nonempty by done.
      unfold fs_mkdir. by rewrite Hd.
    + case_decide as Hc'; [by injection Hc'|done].
  - cbn [errCode errno]. case_decide; [|done]. rewrite mkdir_nonempty by done.
    unfold fs_mkdir. by rewrite Hd.
Qed.

(** A link of the chain that resolved leaves a directory at its path. *)
Lemma mkdirpTask_resolved partialPath w w' :
  partialPath <> EmptyString ->
  mkdirpTask partialPath w = (Resolved tt, w') ->
  isDirectoryAt w' partialPath.
Proof.
  intros Hne. rewrite mkdirpTask_cases by done.
  destruct (disk w !! partialPath) as [[t d|t|code]|] eqn:Hd.
  - done.
  - intros [= <-]. by exists t.
  - by case_decide.
  - intros [= <-]. exists (clock w). cbn. by rewrite lookup_insert_eq.
Qed.

(** A link whose path is a directory already resolves and changes nothing. *)
Lemma mkdirpTask_present partialPath w :
  partialPath <> EmptyString ->
  isDirectoryAt w partialPath ->
  mkdirpTask partialPath w = (Resolved tt, w).
Proof. intros Hne [t Hd]. by rewrite mkdirpTask_cases, Hd. Qed.

Lemma partialPaths_nonempty target partialPath :
  partialPath ∈ partialPaths target -> partialPath <> EmptyString.
Proof. unfold partialPaths. by intros [? _]%list_elem_of_filter. Qed.

Lemma Runs_mkdirpTasks paths w results w' :
  Forall (fun partialPath => partialPath <> EmptyString) paths ->
  Runs (map mkdirpTask paths) w results w' ->
  Forall (isDirectoryAt w') paths.
Proof.
  intros Hne. revert w results. induction Hne as [|partialPath paths Hp _ IH];
    intros w results Hruns; [constructor|].
  inversion Hruns as [|? ? ? [] w1 rs ? Hnext Hrest]; subst.
  constructor; [|by eapply IH].
  destruct (mkdirpTask_resolved _ _ _ Hp Hnext) as [t Ht]. exists t.
  assert (Hgrow : onlyNewDirectories w1 w').
  { apply chainTasks_Runs in Hrest.
    pose proof (preserves_chainTasks (R := onlyNewDirectories)
                  (map mkdirpTask paths)) as Hc.
    specialize (Hc ltac:(apply Forall_forall;
      intros task (q & -> & _)%list_elem_of_fmap;
      apply (preserves_mkdirpTask onlyNewDirectories_fs_mkdir)) w1).
    by rewrite Hrest in Hc. }
  destruct Hgrow as (_ & Hsub & _). by eapply lookup_weaken.
Qed.

Lemma mkdirp_resolved target w results w' :
  mkdirp target w = (Resolved results, w') ->
  Runs (map mkdirpTask (partialPaths target)) w results w'.
Proof.
  unfold mkdirp, seq_, assert_ok. destruct (decide _); [done|]. cbn.
  unfold new_Promise. by intros ?%settle_resolved%chainTasks_resolved.
Qed.

(** X10. [mkdirp] only ever adds directories: whatever its outcome, every
    node that was on the disk is still there unchanged, every node that
    is new is a directory, no file is written and the cache in memory is
    not touched. *)
Theorem mkdirp_only_adds_directories target w :
  onlyNewDirectories w (snd (mkdirp target w))
  /\ sameMemory w (snd (mkdirp target w))
  /\ writeLog (snd (mkdirp target w)) = writeLog w.
Proof.
  split_and!.
  - apply (preserves_mkdirp onlyNewDirectories_fs_mkdir).
  - apply (preserves_mkdirp sameMemory_fs_mkdir).
  - apply (preserves_mkdirp noWrite_fs_mkdir).
Qed.

Lemma split_nonempty p : NodePath.split p <> [].
Proof.
  destruct p as [|c p]; [done|]. cbn [NodePath.split].
  destruct (Ascii.eqb c NodePath.slash); [done|]. by destruct (NodePath.split p).
Qed.

Lemma unsplit_split p : NodePath.unsplit (NodePath.split p) = p.
Proof.
  unfold NodePath.unsplit. induction p as [|c p IH]; [reflexivity|].
  cbn [NodePath.split]. destruct (Ascii.eqb_spec c NodePath.slash) as [->|Hc].
  - pose proof (split_nonempty p) as Hne.
    destruct (NodePath.split p) as [|seg segs]; [done|].
    change (String.concat "/" (EmptyString :: seg :: segs))
      with ("/" +:+ String.concat "/" (seg :: segs)).
    by rewrite IH.
  - pose proof (split_nonempty p) as Hne.
    destruct (NodePath.split p) as [|seg [|seg' segs]]; [done| |].
    + cbn in IH |- *. by rewrite IH.
    + change (String.concat "/" (String c seg :: seg' :: segs))
        with (String c (seg +:+ "/" +:+ String.concat "/" (seg' :: segs))).
      f_equal. exact IH.
Qed.

Lemma target_in_partialPaths target :
  withoutTrailingSlash target <> EmptyString ->
  withoutTrailingSlash target ∈ partialPaths target.
Proof.
  intros Hne. unfold partialPaths. apply list_elem_of_filter. split; [done|].
  apply list_elem_of_fmap.
  exists (length (NodePath.split (withoutTrailingSlash target))). split.
  - by rewrite firstn_all, unsplit_split.
  - apply list_elem_of_In, in_seq.
    pose proof (split_nonempty (withoutTrailingSlash target)).
    destruct (NodePath.split (withoutTrailingSlash target)); [done|]. cbn. lia.
Qed.

Lemma mkdirp_prefixes target w results w' :
  mkdirp target w = (Resolved results, w') ->
  Forall (isDirectoryAt w') (partialPaths target).
Proof.
  intros Hruns%mkdirp_resolved. eapply Runs_mkdirpTasks; [|done].
  apply Forall_forall. intros partialPath. apply partialPaths_nonempty.
Qed.

(** X11. When [mkdirp] resolves, the directory asked for exists, and so
    does every prefix of its path that ends at a segment boundary. *)
Theorem mkdirp_makes_every_prefix target w results w' :
  mkdirp target w = (Resolved results, w') ->
  Forall (isDirectoryAt w') (partialPaths target)
  /\ (withoutTrailingSlash target <> EmptyString ->
      isDirectoryAt w' (withoutTrailingSlash target)).
Proof.
  intros Hall%mkdirp_prefixes. split; [done|]. intros Hne.
  rewrite Forall_forall in Hall. by apply Hall, target_in_partialPaths.
Qed.

(** X12. When one of those prefixes is a regular file, [mkdirp] rejects,
    and the file is left as it is. *)
Theorem mkdirp_rejects_over_a_file target partialPath t data w :
  partialPath ∈ partialPaths target ->
  disk w !! partialPath = Some (File t data) ->
  exists err w',
    mkdirp target w = (Rejected err, w')
    /\ disk w' !! partialPath = Some (File t data).
Proof.
  intros Hin Hfile.
  assert (Hkeep : disk (snd (mkdirp target w)) !! partialPath = Some (File t data)).
  { destruct (preserves_mkdirp onlyNewDirectories_fs_mkdir target w) as (_ & Hsub & _).
    by eapply lookup_weaken. }
  destruct (mkdirp target w) as [[results|err|err] w'] eqn:Hrun.
  - apply mkdirp_prefixes in Hrun.
    rewrite Forall_forall in Hrun. destruct (Hrun _ Hin) as [t' Ht'].
    cbn in Hkeep. congruence.
  - by exists err, w'.
  - exfalso. revert Hrun. unfold mkdirp, seq_, assert_ok.
    destruct (decide (target = EmptyString)) as [->|_]; [by inversion Hin|].
    cbn. unfold new_Promise. by destruct (chainTasks _ w) as [[] ?].
Qed.

Lemma mkdirpTasks_present paths w :
  Forall (fun partialPath => partialPath <> EmptyString) paths ->
  Forall (isDirectoryAt w) paths ->
  Runs (map mkdirpTask paths) w (map (fun _ => tt) paths) w.
Proof.
  induction 1 as [|partialPath paths Hp _ IH]; intros Hdirs; [constructor|].
  inversion Hdirs; subst. cbn [map]. econstructor; [|by apply IH].
  by apply mkdirpTask_present.
Qed.

Lemma Runs_units (queue : list (Promise unit)) w results w' :
  Runs queue w results w' -> results = map (fun _ => tt) queue.
Proof. induction 1 as [|? ? ? [] ? ? ? _ _ IH]; cbn; congruence. Qed.

(** X13. [mkdirp] is idempotent: run again where it resolved, it resolves
    with the same result and changes nothing. *)
Theorem mkdirp_idempotent target w results w' :
  mkdirp target w = (Resolved results, w') ->
  mkdirp target w' = (Resolved results, w').
Proof.
  intros Hrun. pose proof (mkdirp_prefixes _ _ _ _ Hrun) as Hdirs.
  assert (Hne : target <> EmptyString).
  { intros ->. revert Hrun. unfold mkdirp, seq_, assert_ok. by case_decide. }
  apply mkdirp_resolved in Hrun. apply Runs_units in Hrun as ->.
  unfold mkdirp, seq_. rewrite assert_ok_nonempty by done. unfold new_Promise.
  erewrite chainTasks_Runs; [reflexivity|].
  rewrite map_map.
  apply mkdirpTasks_present; [|done].
  apply Forall_forall. intros ?. apply partialPaths_nonempty.
Qed.

End Mkdirp.
Section WriteFilep.

(** A write that did not go through wrote nothing. *)
Lemma writeFilep_failed target text w :
  (forall w', writeFilep target text w <> (Resolved tt, w')) ->
  onlyNewDirectories w (snd (writeFilep target text w))
  /\ writeLog (snd (writeFilep target text w)) = writeLog w.
Proof.
  unfold writeFilep, seq_, assert_ok.
  destruct (decide (target = EmptyString)); [by split|].
  destruct (decide (text = EmptyString)); [by split|]. cbn.
  unfold then_.
  pose proof (preserves_mkdirp onlyNewDirectories_fs_mkdir (NodePath.dirname target) w) as Hdirs.
  pose proof (preserves_mkdirp noWrite_fs_mkdir (NodePath.dirname target) w) as Hlog.
  destruct (mkdirp (NodePath.dirname target) w) as [[r|err|err] w1]; cbn in *; [|done..].
  unfold writeFile, seq_, assert_ok.
  destruct (decide (target = EmptyString)); [done|].
  destruct (decide (text = EmptyString)); [done|]. cbn.
  unfold fs_writeFile.
  destruct (disk w1 !! target) as [[]|]; cbn; intros Hfail; try done;
    by destruct (Hfail _ eq_refl).
Qed.

(** X14. What [writeFilep] wrote can be read back: when it resolves,
    [readFile] of the target resolves with the text, [stat] of the target
    reports a file stamped with the time of the write, every directory on
    the way to the target exists, and exactly this one write was logged. *)
Theorem writeFilep_then_readFile target text w w' :
  writeFilep target text w = (Resolved tt, w') ->
  readFile target w' = (Resolved text, w')
  /\ stat target w' = (Resolved (mkStats (clock w) false), w')
  /\ Forall (isDirectoryAt w') (partialPaths (NodePath.dirname target))
  /\ writeLog w' = (target, text) :: writeLog w.
Proof.
  intros Hwrite.
  destruct (writeFilep_resolved _ _ _ _ Hwrite) as (Hdisk & Hlog & _).
  assert (Hne : target <> EmptyString).
  { intros ->. revert Hwrite. unfold writeFilep, seq_, assert_ok. by case_decide. }
  split_and!; [by eapply readFile_file|by eapply stat_file| |done].
  revert Hwrite. unfold writeFilep, seq_. rewrite assert_ok_nonempty by done.
  unfold assert_ok. destruct (decide (text = EmptyString)); [done|]. cbn.
  unfold then_.
  destruct (mkdirp (NodePath.dirname target) w) as [[r|err|err] w1] eqn:Hmk; [|done..].
  apply mkdirp_prefixes in Hmk.
  intros Hw%settle_resolved. revert Hw.
  unfold writeFile, seq_. rewrite !assert_ok_nonempty by done.
  unfold fs_writeFile.
  destruct (disk w1 !! target) as [[]|] eqn:Ht; intros [= <-];
    (eapply Forall_impl; [exact Hmk|]); intros partialPath [t' Hp]; exists t'; cbn;
    (rewrite lookup_insert_ne; [done|congruence]).
Qed.

(** X15. [writeFilep] touches nothing but its target and the directories
    it creates: whatever its outcome, every node at another path is as it
    was and the cache in memory is not touched; and when it does not
    resolve, no write is logged and the target too is as it was. *)
Theorem writeFilep_frame target text w :
  (forall path node, path <> target ->
     disk w !! path = Some node ->
     disk (snd (writeFilep target text w)) !! path = Some node)
  /\ sameMemory w (snd (writeFilep target text w))
  /\ ((forall w', writeFilep target text w <> (Resolved tt, w')) ->
      writeLog (snd (writeFilep target text w)) = writeLog w
      /\ forall node, disk w !! target = Some node ->
           disk (snd (writeFilep target text w)) !! target = Some node).
Proof.
  split_and!.
  - intros path node Hpath Hnode.
    destruct (writeFilep target text w) as [[[]|err|err] w'] eqn:Hrun.
    + revert Hrun. unfold writeFilep, seq_, assert_ok.
      destruct (decide (target = EmptyString)); [done|].
      destruct (decide (text = EmptyString)); [done|]. cbn. unfold then_.
      pose proof (preserves_mkdirp onlyNewDirectories_fs_mkdir
                    (NodePath.dirname target) w) as (_ & Hsub & _).
      destruct (mkdirp (NodePath.dirname target) w) as [[r|?|?] w1]; [|done..].
      cbn in Hsub. intros Hw%settle_resolved. revert Hw.
      unfold writeFile, seq_. rewrite !assert_ok_nonempty by done.
      unfold fs_writeFile.
      destruct (disk w1 !! target) as [[]|]; intros [= <-]; cbn;
        rewrite lookup_insert_ne by done; by eapply lookup_weaken.
    + destruct (writeFilep_failed target text w) as ((_ & Hsub & _) & _).
      { intros w''. by rewrite Hrun. }
      rewrite Hrun in Hsub. by eapply lookup_weaken.
    + destruct (writeFilep_failed target text w) as ((_ & Hsub & _) & _).
      { intros w''. by rewrite Hrun. }
      rewrite Hrun in Hsub. by eapply lookup_weaken.
  - apply sameMemory_writeFilep.
  - intros Hfail. destruct (writeFilep_failed target text w Hfail) as ((_ & Hsub & _) & Hlog).
    split; [done|]. intros node Hnode. by eapply lookup_weaken.
Qed.

(** X16. The empty text cannot be written: [writeFile] and [writeFilep]
    throw an assertion error for it, as they do for an empty target, and
    leave the world as it is; [writeFilep] creates no directory then. *)
Theorem writing_nothing_is_refused target text w :
  target = EmptyString \/ text = EmptyString ->
  (exists message, writeFile target text w = (Thrown (AssertionError message), w))
  /\ (exists message, writeFilep target text w = (Thrown (AssertionError message), w)).
Proof.
  unfold writeFile, writeFilep, seq_, assert_ok.
  intros [-> | ->].
  - split; by eexists.
  - destruct (decide (target = EmptyString)); split; by eexists.
Qed.

End WriteFilep.
(* ===================================================================== *)
(** ** More about commits and queries *)
(* ===================================================================== *)

Section Commits.
Context `{cfg : Config}.





(** X19. A failed write is not retried for a bucket held by the overlay:
    when a commit into such a bucket rejects, nothing was written, but the
    bucket in memory keeps the new entry; the same commit made again
    resolves at once, without any write, and leaves the world as it is. *)
Theorem failed_write_is_not_retried d p data w l err w1 :
  localCache w !! getHashPath p = Some l ->
  setCacheEntry d p data w = (Rejected err, w1) ->
  writeLog w1 = writeLog w
  /\ bucketAt w1 l !! p = Some (mkCacheEntry d (getHash data))
  /\ setCacheEntry d p data w1 = (Resolved (mkCacheEntry d (getHash data)), w1).
Proof.
  intros Hin. rewrite setCacheEntry_unfold, (getCacheFile_hit _ _ _ Hin). cbv zeta.
  set (e0 := mkCacheEntry d (getHash data)).
  destruct (fileInfoComparer (getProperty (bucketAt w l) p) e0) eqn:Hcmp; [done|].
  set (w2 := mkWorld _ _ _ _ _).
  destruct (writeFilep (getHashPath p) (JSON.stringify (<[p := e0]> (bucketAt w l))) w2)
    as [[[]|err'|err'] w3] eqn:Hwrite; try done.
  all: intros [= <- <-].
  all: pose proof (sameMemory_writeFilep (getHashPath p)
                (JSON.stringify (<[p := e0]> (bucketAt w l))) w2) as Hmem.
  all: destruct (writeFilep_failed (getHashPath p)
              (JSON.stringify (<[p := e0]> (bucketAt w l))) w2) as [_ Hlog];
    [intros w'; by rewrite Hwrite|].
  all: rewrite Hwrite in Hmem, Hlog; cbn [snd] in Hmem, Hlog.
  all: destruct Hmem as (Hheap & Hcache & _).
  all: assert (Hentry : bucketAt w3 l !! p = Some e0)
    by (unfold bucketAt at 1; rewrite Hheap; subst w2; cbn [heap];
        rewrite lookup_insert_eq; cbn [default from_option id];
        apply lookup_assign_eq).
  all: split_and!; [done|done|].
  all: apply (setCacheEntry_skip d p data w3 l w3); [|done].
  all: apply getCacheFile_hit; by rewrite Hcache.
Qed.

End Commits.
(* ===================================================================== *)
(** ** The overlay stays sound *)
(* ===================================================================== *)

Global Instance keepsSound_refl : Reflexive keepsSound.
Proof. intros w Hsound. exact Hsound. Qed.
Global Instance keepsSound_trans : Transitive keepsSound.
Proof. intros w1 w2 w3 H12 H23 H1. apply H23, H12, H1. Qed.

Section Overlay.
Context `{cfg : Config}.

Lemma keepsSound_sameMemory {A} (m : Promise A) :
  preserves sameMemory m -> preserves keepsSound m.
Proof.
  intros Hm w [Hlive Hdist]. destruct (Hm w) as (Hheap & Hcache & _).
  split.
  - intros k l. rewrite Hheap, Hcache. apply Hlive.
  - intros k1 k2 l. rewrite Hcache. apply Hdist.
Qed.

Lemma keepsSound_getCacheFile p : preserves keepsSound (getCacheFile p).
Proof.
  intros w [Hlive Hdist]. split; [by apply keepsLive_getCacheFile|].
  destruct (getCacheFile_ok p w); cbn; try done.
  intros k1 k2 l. cbn. rewrite !lookup_insert.
  repeat case_decide; subst; try done.
  - intros [= <-] [c' Hc']%Hlive. by rewrite fresh_heap_None in Hc'.
  - intros [c' Hc']%Hlive [= <-]. by rewrite fresh_heap_None in Hc'.
  - apply Hdist.
Qed.

Lemma keepsSound_setProperty l key entry : preserves keepsSound (setProperty l key entry).
Proof.
  intros w [Hlive Hdist]. split; [by apply keepsLive_setProperty|done].
Qed.

Lemma keepsSound_setCacheEntry d p data : preserves keepsSound (setCacheEntry d p data).
Proof.
  unfold setCacheEntry, setCacheFile, JSON_stringify, deref. frame;
    first [ apply keepsSound_getCacheFile | apply keepsSound_setProperty
          | apply keepsSound_sameMemory, sameMemory_writeFilep | by intros w ].
Qed.

(** A bucket object the overlay holds under another document is not the
    one a load of [p] resolves with, and the load leaves it as it is. *)
Lemma getCacheFile_other_bucket p w k l :
  soundOverlay w ->
  localCache w !! k = Some l ->
  k <> getHashPath p ->
  bucketAt (snd (getCacheFile p w)) l = bucketAt w l
  /\ forall l0, fst (getCacheFile p w) = Resolved l0 -> l0 <> l.
Proof.
  intros [Hlive Hdist] Hk Hne. destruct (Hlive _ _ Hk) as [b Hc].
  destruct (getCacheFile_frame p w) as (_ & Hheap & _).
  split.
  - unfold bucketAt. by rewrite (lookup_weaken _ _ _ _ Hc Hheap), Hc.
  - intros l0. destruct (getCacheFile_ok p w); cbn; intros [= <-]; intros Heq.
    + subst. destruct Hne. by eapply Hdist.
    + rewrite <- Heq in Hc. by rewrite fresh_heap_None in Hc.
    + rewrite <- Heq in Hc. by rewrite fresh_heap_None in Hc.
Qed.

Lemma soundOverlay_initialWorld d now : soundOverlay (initialWorld d now).
Proof.
  split.
  - intros k l. cbn. by rewrite lookup_empty.
  - intros k1 k2 l. cbn. by rewrite lookup_empty.
Qed.

Lemma keepsSound_getCached p : preserves keepsSound (getCached p).
Proof.
  unfold getCached, getCacheEntry, deref. frame;
    first [ apply preserves_stat | apply preserves_readFile
          | apply keepsSound_getCacheFile | by intros w ].
Qed.

Lemma keepsSound_updateCache p : preserves keepsSound (updateCache p).
Proof.
  unfold updateCache. frame;
    first [ apply preserves_stat | apply preserves_readFile
          | apply keepsSound_setCacheEntry ].
Qed.

(** X20. The overlay stays sound: the module starts with an empty overlay,
    and after any sequence of queries and commits every overlay entry
    still points to a bucket object that exists, and no two documents of
    the overlay share one bucket object. *)
Theorem overlay_stays_sound (calls : list (string + string)) d now :
  soundOverlay
    (fold_left
       (fun w call =>
          match call with
          | inl p => snd (getCached p w)
          | inr p => snd (updateCache p w)
          end)
       calls (initialWorld d now)).
Proof.
  generalize (soundOverlay_initialWorld d now).
  generalize (initialWorld d now).
  induction calls as [|[p|p] calls IH]; intros w Hsound; cbn [fold_left];
    [done|apply IH..].
  - by apply keepsSound_getCached.
  - by apply keepsSound_updateCache.
Qed.

(** X21. A commit touches one bucket only: in a sound world, whatever
    the commit of [p] comes to, every bucket the overlay holds under
    another document than that of [p] has the entries it had. *)
Theorem commit_leaves_other_buckets d p data w k l :
  soundOverlay w ->
  localCache w !! k = Some l ->
  k <> getHashPath p ->
  bucketAt (snd (setCacheEntry d p data w)) l = bucketAt w l.
Proof.
  intros Hsound Hk Hne.
  destruct (getCacheFile_other_bucket p w k l Hsound Hk Hne) as [Hsame Hother].
  rewrite setCacheEntry_unfold.
  destruct (getCacheFile p w) as [[l0|err|err] w0]; cbn [fst snd] in *; [|done..].
  specialize (Hother l0 eq_refl). cbv zeta.
  destruct (fileInfoComparer _ _); [done|].
  set (w2 := mkWorld _ _ _ _ _).
  pose proof (sameMemory_writeFilep (getHashPath p)
    (JSON.stringify (<[p := mkCacheEntry d (getHash data)]> (bucketAt w0 l0))) w2)
    as (Hheap & _).
  assert (Hw2 : bucketAt w2 l = bucketAt w l).
  { rewrite <- Hsame. unfold bucketAt, w2. cbn [heap]. by rewrite lookup_insert_ne. }
  destruct (writeFilep _ _ w2) as [[] w3]; cbn [snd] in *;
    rewrite <- Hw2; unfold bucketAt; by rewrite Hheap.
Qed.

End Overlay.

(* ===================================================================== *)
(** ** Asking again *)
(* ===================================================================== *)

Section Repeat.
Context `{cfg : Config}.

(** What [stat] and [readFile] of a path come to is read off the disk,
    and neither changes the world. *)
Lemma probe_disk p w :
  exists o, forall w', disk w' = disk w ->
    Promise_all2 (stat p) (readFile p) w' = (o, w').
Proof.
  unfold Promise_all2, stat, readFile, seq_, assert_ok.
  destruct (decide (p = EmptyString)); [by eexists|].
  unfold resolve, fs_stat, fs_readFile.
  destruct (disk w !! p) as [[]|] eqn:Hd; eexists; intros w' Hw';
    repeat (rewrite Hw', Hd; cbv beta iota); reflexivity.
Qed.

Lemma getCached_probe p w :
  getCached p w =
    match Promise_all2 (stat p) (readFile p) w with
    | (Resolved (stats, data), w0) =>
        match getCacheEntry (getHashPath p) w0 with
        | (Resolved e, w1) =>
            (Resolved (mkFileInfo p data (ctime stats)
                         (changedVerdict (getHash data) (ctime stats) e)), w1)
        | (Rejected err, w1) | (Thrown err, w1) => (Rejected err, w1)
        end
    | (Rejected err, w0) => (Rejected err, w0)
    | (Thrown err, w0) => (Thrown err, w0)
    end.
Proof.
  unfold getCached, then_ at 1.
  destruct (Promise_all2 _ _ w) as [[[stats data]|err|err] w0]; try done.
  unfold then_. by destruct (getCacheEntry _ w0) as [[] w1].
Qed.


(** Reading an entry a second time gives what the first reading gave. *)
Lemma getCacheEntry_again q w :
  fst (getCacheEntry q (snd (getCacheEntry q w))) = fst (getCacheEntry q w).
Proof.
  rewrite (getCacheEntry_unfold q w).
  pose proof (getCacheFile_ok q w) as Hs.
  destruct (getCacheFile q w) as [o w1] eqn:Hload.
  inversion Hs as [l Hc|data c Hc Hr Hp|data Hc Hr Hp|err Hc Hr Hcode|err Hc Hr Hcode];
    subst; cbn [fst snd]; rewrite getCacheEntry_unfold.
  - by rewrite Hload.
  - erewrite getCacheFile_hit; [done|]. cbn. by rewrite lookup_insert_eq.
  - by rewrite Hload.
  - set (w1 := mkWorld _ _ _ _ _).
    assert (Hr1 : fs_readFile (getHashPath q) w1 = (Rejected err, w1)).
    { revert Hr. unfold fs_readFile. cbn [disk w1].
      destruct (disk w !! getHashPath q) as [[]|]; by intros [= <-]. }
    pose proof (getCacheFile_ok q w1) as Hs1.
    inversion Hs1 as [l Hc1| | |err1 ? Hr1' Hcode1|err1 ? Hr1' Hcode1];
      try congruence.
    + cbn in Hc1. congruence.
    + unfold bucketAt. cbn [heap w1]. by rewrite !lookup_insert_eq.
  - by rewrite Hload.
Qed.

(** X22. A query asked again gives the same answer: whatever a query
    comes to, the same query made in the world it leaves comes to the
    same result (the same [FileInfo], or the same failure). *)
Theorem getCached_again p w :
  fst (getCached p (snd (getCached p w))) = fst (getCached p w).
Proof.
  destruct (probe_disk p w) as [o Ho].
  rewrite (getCached_probe p w), (Ho w eq_refl).
  destruct o as [[stats data]|err|err].
  - pose proof (getCacheEntry_again (getHashPath p) w) as Hagain.
    destruct (onlyLoads_getCacheEntry (getHashPath p) w) as ((Hdisk & _) & _).
    destruct (getCacheEntry (getHashPath p) w) as [[e|err|err] w1];
      cbn [fst snd] in *; rewrite getCached_probe, (Ho w1 Hdisk);
      destruct (getCacheEntry (getHashPath p) w1) as [[] w2]; cbn in *; congruence.
  - cbn [fst snd]. by rewrite getCached_probe, (Ho w eq_refl).
  - cbn [fst snd]. by rewrite getCached_probe, (Ho w eq_refl).
Qed.


End Repeat.
(* ===================================================================== *)
(** ** The statements above, on the concrete worlds *)
(* ===================================================================== *)

Module Instances.
Import Scenario Fixture.

Lemma chainTasks_runs_in_order_witness :
  chainTasksOf twoDirectories start
  = (Resolved [tt; tt], snd (mkdir "/repo/y" (snd (mkdir "/repo/x" start))))
  /\ length [tt; tt] = length (flatten twoDirectories).
Proof.
  apply (chainTasks_runs_in_order twoDirectories start).
  apply (Runs_cons _ _ _ tt (snd (mkdir "/repo/x" start))); [vm_compute; reflexivity|].
  apply (Runs_cons _ _ _ tt (snd (mkdir "/repo/y" (snd (mkdir "/repo/x" start)))));
    [vm_compute; reflexivity|].
  apply Runs_nil.
Defined.

Lemma chainTasks_stops_at_first_failure_witness :
  chainTasks ([mkdir "/repo/x"] ++ mkdir "/repo" :: [mkdir "/repo/z"]) start
  = (Rejected (errno "EEXIST" "/repo"), snd (mkdir "/repo/x" start)).
Proof.
  apply (chainTasks_stops_at_first_failure
           [mkdir "/repo/x"] [mkdir "/repo/z"] (mkdir "/repo") start [tt]
           (snd (mkdir "/repo/x" start))).
  - apply (Runs_cons _ _ _ tt (snd (mkdir "/repo/x" start))); [vm_compute; reflexivity|].
    apply Runs_nil.
  - left. vm_compute. reflexivity.
Defined.

Lemma truncate_bounded_witness :
  truncate "short" = "short"
  /\ String.length
       (truncate "0123456789012345678901234567890123456789012345678901234567890123456789")
     = 63%nat.
Proof.
  split.
  - apply (proj1 (proj2 (truncate_bounded "short"))). vm_compute. lia.
  - apply (proj2 (proj2 (truncate_bounded
      "0123456789012345678901234567890123456789012345678901234567890123456789"))).
    vm_compute. lia.
Defined.

Lemma withoutTrailingSlash_strips_one_witness :
  withoutTrailingSlash "/repo/out" = "/repo/out".
Proof.
  apply (proj2 (withoutTrailingSlash_strips_one "/repo/out")). reflexivity.
Defined.

Lemma executeCommands_dispatch_witness :
  executeCommands tasks ["build:fast"] start
  = then_ (build (Some "fast")) (fun _ => resolve "build:fast") start.
Proof.
  apply (proj1 (executeCommands_dispatch tasks "build" "fast" build start
                  eq_refl eq_refl eq_refl)).
Defined.

Lemma executeCommands_refusals_witness :
  executeCommands tasks ["deploy:now"] start
  = (Thrown (Error ("No task named " +:+ quoted "undefined")), start).
Proof.
  apply (proj2 (proj1 (proj2 (proj2 (executeCommands_refusals tasks start)))
                  "deploy:now" eq_refl)).
  apply (bool_decide_eq_false_1 ("deploy" ∈ objectPrototype)). vm_compute. reflexivity.
Defined.

Lemma mkdirp_makes_every_prefix_witness :
  Forall (isDirectoryAt (snd (mkdirp deep start))) (partialPaths deep)
  /\ (withoutTrailingSlash deep <> EmptyString ->
      isDirectoryAt (snd (mkdirp deep start)) (withoutTrailingSlash deep)).
Proof.
  apply (mkdirp_makes_every_prefix deep start [tt; tt; tt]).
  vm_compute. reflexivity.
Defined.

Lemma mkdirp_rejects_over_a_file_witness :
  exists err w',
    mkdirp (tracked +:+ "/sub") start = (Rejected err, w')
    /\ disk w' !! tracked = Some (File 1000 "x").
Proof.
  apply (mkdirp_rejects_over_a_file (tracked +:+ "/sub") tracked 1000 "x" start).
  - apply (bool_decide_eq_true_1 (tracked ∈ partialPaths (tracked +:+ "/sub"))).
    vm_compute. reflexivity.
  - vm_compute. reflexivity.
Defined.

Lemma mkdirp_idempotent_witness :
  mkdirp deep (snd (mkdirp deep start)) = (Resolved [tt; tt; tt], snd (mkdirp deep start)).
Proof.
  apply (mkdirp_idempotent deep start). vm_compute. reflexivity.
Defined.

Lemma writeFilep_then_readFile_witness :
  readFile report (snd (writeFilep report "done" start))
  = (Resolved "done", snd (writeFilep report "done" start))
  /\ stat report (snd (writeFilep report "done" start))
     = (Resolved (mkStats (clock start) false), snd (writeFilep report "done" start))
  /\ Forall (isDirectoryAt (snd (writeFilep report "done" start)))
       (partialPaths (NodePath.dirname report))
  /\ writeLog (snd (writeFilep report "done" start))
     = (report, "done") :: writeLog start.
Proof.
  apply (writeFilep_then_readFile report "done" start). vm_compute. reflexivity.
Defined.

Lemma writeFilep_frame_witness :
  writeLog (snd (writeFilep bucketDoc "{}" blocked)) = writeLog blocked
  /\ forall node, disk blocked !! bucketDoc = Some node ->
       disk (snd (writeFilep bucketDoc "{}" blocked)) !! bucketDoc = Some node.
Proof.
  apply (proj2 (proj2 (writeFilep_frame bucketDoc "{}" blocked))).
  intros w' H. vm_compute in H. discriminate H.
Defined.

Lemma writing_nothing_is_refused_witness :
  (exists message, writeFile report "" start = (Thrown (AssertionError message), start))
  /\ (exists message, writeFilep report "" start = (Thrown (AssertionError message), start)).
Proof.
  apply (writing_nothing_is_refused report "" start). right. reflexivity.
Defined.



Lemma failed_write_is_not_retried_witness :
  writeLog (snd (@setCacheEntry demo 7000 tracked "y" locked)) = writeLog locked
  /\ bucketAt (snd (@setCacheEntry demo 7000 tracked "y" locked)) 2%positive !! tracked
     = Some (mkCacheEntry 7000 (getHash "y"))
  /\ @setCacheEntry demo 7000 tracked "y" (snd (@setCacheEntry demo 7000 tracked "y" locked))
     = (Resolved (mkCacheEntry 7000 (getHash "y")),
        snd (@setCacheEntry demo 7000 tracked "y" locked)).
Proof.
  apply (failed_write_is_not_retried (cfg := demo) 7000 tracked "y" locked
           2%positive (errno "EACCES" bucketDoc)).
  - vm_compute. reflexivity.
  - vm_compute. reflexivity.
Defined.

Lemma commit_leaves_other_buckets_witness :
  bucketAt (snd (@setCacheEntry demo 7000 elsewhere "y" loaded)) 2%positive
  = bucketAt loaded 2%positive.
Proof.
  apply (commit_leaves_other_buckets (cfg := demo) 7000 elsewhere "y" loaded bucketDoc).
  - apply (keepsSound_getCacheFile (cfg := demo) tracked committed).
    apply (keepsSound_updateCache (cfg := demo) tracked start).
    apply soundOverlay_initialWorld.
  - vm_compute. reflexivity.
  - vm_compute. discriminate.
Defined.


End Instances.
